(** * ScheduleAnalyzer: outage schedules, availability windows and their intersection

    A shallow embedding of [src/schedule_analyzer.py] (class [ScheduleAnalyzer])
    and the properties of it that the specification states.

    - Python numbers are [Py.num]: an [int] is a [Z], a [float] is an IEEE-754
      binary64 value ([spec_float] of the Standard Library, precision 53,
      [emax] 1024), with the operations the code uses on them.
    - A raised exception is [None] in the [option] monad.
    - A dictionary read with [d.get(k, default)] is a record field of type
      [option _]; a dictionary read with [d[k]] is a plain record field.
    - [sorted] is a stable merge sort; [set] is a [gset]. *)

From Stdlib Require Import ZArith Lia SpecFloat Ascii.
From stdpp Require Import base option list list_monad sorting gmap strings pretty.

Local Open Scope Z_scope.

(** ** Python primitives used by the module *)
Module Py.

Definition prec : Z := 53.
Definition emax : Z := 1024.

(** A Python number: [int] or [float]. *)
Inductive num :=
  | Int (n : Z)
  | Float (x : spec_float).

(** [int(x)] on a float: truncation towards zero; [ValueError] on a NaN and
    [OverflowError] on an infinity. *)
Definition int_of_float (x : spec_float) : option Z :=
  match x with
  | S754_zero _ => Some 0
  | S754_finite s m e => Some (cond_Zopp s (Z.shiftl (Z.pos m) e))
  | S754_infinity _ | S754_nan => None
  end.

(** The implicit [int] to [float] conversion of mixed arithmetic: correctly
    rounded; [OverflowError] when the integer is too large for a float. *)
Definition float_of_int (n : Z) : option spec_float :=
  match binary_normalize prec emax n 0 false with
  | S754_infinity _ => None
  | x => Some x
  end.

Definition fsub : spec_float → spec_float → spec_float := SFsub prec emax.
Definition fmul : spec_float → spec_float → spec_float := SFmul prec emax.
Definition fdiv : spec_float → spec_float → spec_float := SFdiv prec emax.

(** The float nearest to [n / d], as the literal [n/d] written in decimal
    denotes when [n] and [d] are exactly representable. *)
Definition ratio (n d : Z) : spec_float :=
  fdiv (binary_normalize prec emax n 0 false) (binary_normalize prec emax d 0 false).

(** Exact integer part of a float, rounding towards minus infinity and
    towards plus infinity. *)
Definition floor (x : spec_float) : Z :=
  match x with
  | S754_finite s m e => Z.shiftl (cond_Zopp s (Z.pos m)) e
  | _ => 0
  end.

Definition ceil (x : spec_float) : Z :=
  match x with
  | S754_finite s m e => - Z.shiftl (cond_Zopp (negb s) (Z.pos m)) e
  | _ => 0
  end.

Definition finite (x : spec_float) : Prop :=
  match x with
  | S754_zero _ | S754_finite _ _ _ => True
  | _ => False
  end.

(** Tuples of integers compare lexicographically. *)
Definition tuple_le (a b : Z * Z) : Prop :=
  a.1 < b.1 ∨ (a.1 = b.1 ∧ a.2 ≤ b.2).

Global Instance tuple_le_dec a b : Decision (tuple_le a b).
Proof. unfold tuple_le. apply _. Defined.

(** [sorted(l)] on a list of integer tuples. *)
Definition sorted_tuples (l : list (Z * Z)) : list (Z * Z) := merge_sort tuple_le l.

(** [sorted(list(s))] on a set of integers. *)
Definition sorted_set (s : gset Z) : list Z := merge_sort Z.le (elements s).

(** The format specification [02d]: sign-aware zero padding to width 2. *)
Definition fmt_02d (n : Z) : string :=
  if decide (0 ≤ n < 10) then "0" +:+ pretty n else pretty n.

End Py.

(** ** The data model *)

(** An outage as supplied by the data source; both keys are read with
    [outage.get(key, 0)]. *)
Record Outage := mkOutage {
  start_hour : option Py.num;
  end_hour : option Py.num
}.

(** A user schedule entry; ["outages"] is read with [.get("outages", [])],
    the two identity keys with [schedule[...]] . *)
Record Schedule := mkSchedule {
  user_id : Z;
  username : string;
  outages : option (list Outage)
}.

(** A pair [(start, end)] of minutes since midnight, read as [start, end). *)
Abbreviation interval := (Z * Z)%type (only parsing).

(** The dictionary appended by [find_n_minus_one_periods]. *)
Record ExclusionPeriod := mkExclusionPeriod {
  missing_user_id : Z;
  missing_username : string;
  start : Z;
  end_ : Z;
  start_hhmm : string;
  end_hhmm : string;
  duration_minutes : Z
}.

(** ** The functions of [ScheduleAnalyzer] *)

Definition convert_hour_to_minutes (hour : Py.num) : option Z :=
  match hour with
  | Py.Int n =>
      let hours := n in
      let minutes := (n - hours) * 60 in
      Some (hours * 60 + minutes)
  | Py.Float x =>
      hours ← Py.int_of_float x;
      fhours ← Py.float_of_int hours;
      sixty ← Py.float_of_int 60;
      minutes ← Py.int_of_float (Py.fmul (Py.fsub x fhours) sixty);
      Some (hours * 60 + minutes)
  end.

Definition minutes_to_hhmm (minutes : Z) : string :=
  let hours := minutes `div` 60 in
  let mins := minutes `mod` 60 in
  Py.fmt_02d hours +:+ ":" +:+ Py.fmt_02d mins.

Definition outage_interval (outage : Outage) : option interval :=
  start ← convert_hour_to_minutes (default (Py.Int 0) (start_hour outage));
  end_ ← convert_hour_to_minutes (default (Py.Int 0) (end_hour outage));
  Some (start, end_).

Definition get_outage_intervals (outages : list Outage) : option (list interval) :=
  intervals ← mapM outage_interval outages;
  Some (Py.sorted_tuples intervals).

(** The loop [for i in range(len(outage_intervals) - 1)]: one candidate gap per
    adjacent pair, appended to [electricity_periods] when it is not empty. *)
Fixpoint gaps_loop (outage_intervals : list interval) (electricity_periods : list interval)
    : list interval :=
  match outage_intervals with
  | a :: (b :: _) as rest =>
      let gap_start := a.2 in
      let gap_end := b.1 in
      gaps_loop rest
        (if decide (gap_start < gap_end)
         then electricity_periods ++ [(gap_start, gap_end)]
         else electricity_periods)
  | _ => electricity_periods
  end.

Definition invert_intervals (outage_intervals : list interval) : list interval :=
  match outage_intervals, last outage_intervals with
  | first :: _, Some final =>
      let electricity_periods := [] in
      let electricity_periods :=
        if decide (first.1 > 0) then electricity_periods ++ [(0, first.1)]
        else electricity_periods in
      let electricity_periods := gaps_loop outage_intervals electricity_periods in
      if decide (final.2 < 24 * 60) then electricity_periods ++ [(final.2, 24 * 60)]
      else electricity_periods
  | _, _ => [(0, 24 * 60)]
  end.

Definition get_electricity_periods (outages : list Outage) : option (list interval) :=
  outage_intervals ← get_outage_intervals outages;
  Some (invert_intervals outage_intervals).

(** [all_points.add(start); all_points.add(end)] for every period. *)
Definition add_points (all_points : gset Z) (periods : list interval) : gset Z :=
  foldl (λ points p, {[p.2]} ∪ ({[p.1]} ∪ points)) all_points periods.

Fixpoint collect_points (schedules : list Schedule) (all_points : gset Z)
    : option (gset Z) :=
  match schedules with
  | [] => Some all_points
  | schedule :: rest =>
      periods ← get_electricity_periods (default [] (outages schedule));
      collect_points rest (add_points all_points periods)
  end.

(** The innermost loop: is [point] inside one of the periods? *)
Definition has_power (electricity_periods : list interval) (point : Z) : bool :=
  existsb (λ p, bool_decide (p.1 ≤ point < p.2)) electricity_periods.

(** The loop over the schedules, left at the first user without power. *)
Fixpoint all_have_power (schedules : list Schedule) (point : Z) : option bool :=
  match schedules with
  | [] => Some true
  | schedule :: rest =>
      electricity_periods ← get_electricity_periods (default [] (outages schedule));
      if has_power electricity_periods point then all_have_power rest point
      else Some false
  end.

(** [common_periods[-1] = p]. *)
Definition set_last (common_periods : list interval) (p : interval) : list interval :=
  <[pred (length common_periods) := p]> common_periods.

(** One qualifying sub-interval: widen the last period or open a new one. *)
Definition add_period (common_periods : list interval) (point next_point : Z)
    : list interval :=
  match last common_periods with
  | Some final =>
      if decide (final.2 = point) then set_last common_periods (final.1, next_point)
      else common_periods ++ [(point, next_point)]
  | None => common_periods ++ [(point, next_point)]
  end.

(** The loop [for i in range(len(all_points) - 1)] over adjacent boundaries. *)
Fixpoint sweep (schedules : list Schedule) (all_points : list Z)
    (common_periods : list interval) : option (list interval) :=
  match all_points with
  | point :: (next_point :: _) as rest =>
      ok ← all_have_power schedules point;
      sweep schedules rest
        (if ok : bool then add_period common_periods point next_point
         else common_periods)
  | _ => Some common_periods
  end.

Definition find_common_electricity_periods (schedules : list Schedule)
    : option (list interval * list ExclusionPeriod) :=
  match schedules with
  | [] => Some ([], [])
  | [schedule] =>
      periods ← get_electricity_periods (default [] (outages schedule));
      Some (periods, [])
  | _ =>
      all_points ← collect_points schedules {[0; 24 * 60]};
      common_periods ← sweep schedules (Py.sorted_set all_points) [];
      Some (common_periods, [])
  end.

(** The body of the two inner loops for one pair of a common period and an
    outage of the excluded user. *)
Definition overlap_record (excluded_schedule : Schedule) (other outage : interval)
    : list ExclusionPeriod :=
  let overlap_start := Z.max other.1 outage.1 in
  let overlap_end := Z.min other.2 outage.2 in
  if decide (overlap_start < overlap_end) then
    [ {| missing_user_id := user_id excluded_schedule;
         missing_username := username excluded_schedule;
         start := overlap_start;
         end_ := overlap_end;
         start_hhmm := minutes_to_hhmm overlap_start;
         end_hhmm := minutes_to_hhmm overlap_end;
         duration_minutes := overlap_end - overlap_start |} ]
  else [].

Definition overlap_records (excluded_schedule : Schedule)
    (common_periods excluded_outages : list interval) : list ExclusionPeriod :=
  other ← common_periods;
  outage ← excluded_outages;
  overlap_record excluded_schedule other outage.

(** [enumerate(l)]: every element with its position. *)
Definition enumerate {A} (l : list A) : list (nat * A) := imap (λ i x, (i, x)) l.

(** The loop [for excluded_idx, excluded_schedule in enumerate(schedules)]. *)
Fixpoint exclusion_loop (schedules : list Schedule) (todo : list (nat * Schedule))
    (results : list ExclusionPeriod) : option (list ExclusionPeriod) :=
  match todo with
  | [] => Some results
  | (excluded_idx, excluded_schedule) :: todo' =>
      excluded_outages ← get_outage_intervals (default [] (outages excluded_schedule));
      let other_schedules :=
        take excluded_idx schedules ++ drop (S excluded_idx) schedules in
      common ← find_common_electricity_periods other_schedules;
      exclusion_loop schedules todo'
        (results ++ overlap_records excluded_schedule common.1 excluded_outages)
  end.

Definition find_n_minus_one_periods (schedules : list Schedule)
    : option (list ExclusionPeriod) :=
  if decide (length schedules < 2)%nat then Some []
  else exclusion_loop schedules (enumerate schedules) [].

(** ** The scenario of the specification *)

(** Whole hours written as integers ([5]) or as floats ([5.0]); half hours are
    floats ([1.5]). *)
Definition hours (n : Z) : option Py.num := Some (Py.Int n).
Definition hours_float (n : Z) : option Py.num := Some (Py.Float (Py.ratio n 1)).
Definition half_past (n : Z) : option Py.num := Some (Py.Float (Py.ratio (2 * n + 1) 2)).

Definition user_A : Schedule :=
  mkSchedule 1 "A"
    (Some [mkOutage (half_past 1) (hours 5);
           mkOutage (hours 12) (half_past 15);
           mkOutage (half_past 22) (hours 24)]).

Definition user_B : Schedule :=
  mkSchedule 2 "B"
    (Some [mkOutage (hours 0) (half_past 1);
           mkOutage (half_past 8) (hours 12);
           mkOutage (hours 19) (half_past 22)]).

(** The same two users with every hour a float. *)
Definition user_A_float : Schedule :=
  mkSchedule 1 "A"
    (Some [mkOutage (half_past 1) (hours_float 5);
           mkOutage (hours_float 12) (half_past 15);
           mkOutage (half_past 22) (hours_float 24)]).

Definition user_B_float : Schedule :=
  mkSchedule 2 "B"
    (Some [mkOutage (hours_float 0) (half_past 1);
           mkOutage (half_past 8) (hours_float 12);
           mkOutage (hours_float 19) (half_past 22)]).

(** ** Predicates on lists of intervals *)

(** Minute [m] lies in the half-open interval [p]. *)
Definition contains (p : interval) (m : Z) : Prop := p.1 ≤ m < p.2.

(** Minute [m] lies in one of the intervals of [ps]. *)
Definition covers (ps : list interval) (m : Z) : Prop := ∃ p, p ∈ ps ∧ contains p m.

Definition sorted_ascending (ps : list interval) : Prop :=
  StronglySorted (λ a b : interval, a.1 ≤ b.1) ps.

Definition pairwise_disjoint (ps : list interval) : Prop :=
  ∀ (i j : nat) (a b : interval),
    i ≠ j → ps !! i = Some a → ps !! j = Some b → ∀ m, ¬ (contains a m ∧ contains b m).

Definition all_nonempty (ps : list interval) : Prop := Forall (λ p : interval, p.1 < p.2) ps.

(** No period starts where the previous one ends. *)
Definition maximal (ps : list interval) : Prop :=
  ∀ (i : nat) (a b : interval), ps !! i = Some a → ps !! S i = Some b → a.2 ≠ b.1.

(** Each period ends no later than every later period starts. *)
Definition separated (ps : list interval) : Prop :=
  StronglySorted (λ a b : interval, a.2 ≤ b.1) ps.

(** Two outages of one user do not overlap. *)
Definition apart (a b : interval) : Prop := a.2 ≤ b.1 ∨ b.2 ≤ a.1.

(** Every unordered pair of distinct positions of [l] is related by [R]. *)
Fixpoint pairwise {A} (R : A → A → Prop) (l : list A) : Prop :=
  match l with
  | [] => True
  | x :: l' => Forall (R x) l' ∧ pairwise R l'
  end.

(** A well-formed outage list of one user, in minutes. *)
Definition well_formed (ivs : list interval) : Prop :=
  Forall (λ iv : interval, 0 ≤ iv.1 ∧ iv.1 < iv.2 ∧ iv.2 ≤ 1440) ivs ∧ pairwise apart ivs.

(** The outage list of a schedule converts without an error to well-formed
    intervals. *)
Definition well_formed_schedule (schedule : Schedule) : Prop :=
  ∃ ivs, get_outage_intervals (default [] (outages schedule)) = Some ivs ∧ well_formed ivs.

(** The complement of a chain of intervals within [lo, 1440), from left to
    right: the reference the inversion loop is compared with. *)
Fixpoint complement (lo : Z) (ivs : list interval) : list interval :=
  match ivs with
  | [] => if decide (lo < 1440) then [(lo, 1440)] else []
  | iv :: rest => (if decide (lo < iv.1) then [(lo, iv.1)] else []) ++ complement iv.2 rest
  end.

(** Each interval starts no earlier than the previous one ends, from [lo] on. *)
Fixpoint chain (lo : Z) (ivs : list interval) : Prop :=
  match ivs with
  | [] => lo ≤ 1440
  | iv :: rest => lo ≤ iv.1 ∧ iv.1 < iv.2 ∧ chain iv.2 rest
  end.

(** An outage entered backwards, from 10:00 to 05:00. *)
Definition backwards_outage : Outage := mkOutage (hours 10) (hours 5).

(** The availability windows of one schedule entry. *)
Definition windows_of (schedule : Schedule) : option (list interval) :=
  get_electricity_periods (default [] (outages schedule)).

(** Every user of [wss] (one list of windows per user) has power at [m]. *)
Definition everyone (wss : list (list interval)) (m : Z) : Prop :=
  Forall (λ ws, covers ws m) wss.

(** Between two adjacent boundaries the answer of the users does not change. *)
Fixpoint const_on (wss : list (list interval)) (pts : list Z) : Prop :=
  match pts with
  | p :: (q :: _) as rest =>
      (∀ m, p ≤ m < q → (everyone wss m ↔ everyone wss p)) ∧ const_on wss rest
  | _ => True
  end.

(** Each period ends strictly before every later period starts. *)
Definition strictly_separated (ps : list interval) : Prop :=
  StronglySorted (λ a b : interval, a.2 < b.1) ps.

(** The invariant of the sweep when it stands at boundary [p]. *)
Definition sweep_inv (common_periods : list interval) (p : Z) : Prop :=
  strictly_separated common_periods ∧ all_nonempty common_periods ∧
  Forall (λ a : interval, a.2 ≤ p) common_periods.

(** The fields of an emitted record agree with one another. *)
Definition record_consistent (r : ExclusionPeriod) : Prop :=
  duration_minutes r = end_ r - start r ∧
  start r < end_ r ∧
  start_hhmm r = minutes_to_hhmm (start r) ∧
  end_hhmm r = minutes_to_hhmm (end_ r).

(** Record [r] names an entry of [schedules] and is a non-empty interval inside
    one outage of that entry and inside one period the engine returns for the
    other entries. *)
Definition exclusion_ok (schedules : list Schedule) (r : ExclusionPeriod) : Prop :=
  ∃ (idx : nat) (e : Schedule) (outs commons : list interval) (o c : interval),
    schedules !! idx = Some e ∧
    missing_user_id r = user_id e ∧ missing_username r = username e ∧
    get_outage_intervals (default [] (outages e)) = Some outs ∧
    find_common_electricity_periods (take idx schedules ++ drop (S idx) schedules)
      = Some (commons, []) ∧
    o ∈ outs ∧ c ∈ commons ∧
    start r < end_ r ∧
    o.1 ≤ start r ∧ end_ r ≤ o.2 ∧
    c.1 ≤ start r ∧ end_ r ≤ c.2.

(** A float that is a zero, or positive and below [2 ^ K]. *)
Definition nonneg_below (K : Z) (x : spec_float) : Prop :=
  match x with
  | S754_zero _ => True
  | S754_finite s m e => s = false ∧ Zdigits2 (Z.pos m) + e ≤ K
  | _ => False
  end.

(** The float of integer [n] is positive and exact: [my * 2 ^ ey = n]. *)
Definition exact_int_float (n : Z) : bool :=
  match Py.float_of_int n with
  | Some (S754_finite false my ey) => bool_decide (ey ≤ 0 ∧ Z.pos my = n * 2 ^ (- ey))
  | _ => false
  end.

(** The float [60.0]. *)
Definition sixty : spec_float := S754_finite false 8444249301319680 (-47).

(** The hours on which the conversion is shown to return: every integer, and
    every finite float of [0, 24]. The fractional hours of the day that the
    specification takes as input are among them; NaN and the infinities, on
    which [int()] raises, are not. *)
Definition day_hour (hour : Py.num) : Prop :=
  match hour with
  | Py.Int _ => True
  | Py.Float x => Py.finite x ∧ 0 ≤ Py.floor x ∧ Py.ceil x ≤ 24
  end.

(** Both hours of an outage, as [get_outage_intervals] reads them (a missing
    key is [0]), are such hours. Nothing is asked of their order. *)
Definition day_outage (outage : Outage) : Prop :=
  day_hour (default (Py.Int 0) (start_hour outage)) ∧
  day_hour (default (Py.Int 0) (end_hour outage)).

(** One entry whose outage runs backwards, from 10:30 to 05:00, and whose
    other outage has no start and ends at the float [24.0]. *)
Definition backwards_user : Schedule :=
  mkSchedule 3 "C"
    (Some [mkOutage (half_past 10) (hours 5); mkOutage None (hours_float 24)]).

(** ** Further Python primitives *)
Module PyMore.

(** The exception classes the code can meet on numbers. *)
Inductive exn := ValueError | OverflowError | TypeError | ZeroDivisionError.

(** [int(x)] on a float, with the class of the exception it raises. *)
Definition int_of_float (x : spec_float) : exn + Z :=
  match x with
  | S754_zero _ => inr 0
  | S754_finite s m e => inr (cond_Zopp s (Z.shiftl (Z.pos m) e))
  | S754_infinity _ => inl OverflowError
  | S754_nan => inl ValueError
  end.

(** The implicit [int] to [float] conversion, with its exception. *)
Definition float_of_int (n : Z) : exn + spec_float :=
  match binary_normalize Py.prec Py.emax n 0 false with
  | S754_infinity _ => inl OverflowError
  | x => inr x
  end.

(** Sequencing of computations that may raise. *)
Definition bind {A B} (r : exn + A) (k : A → exn + B) : exn + B :=
  match r with
  | inl e => inl e
  | inr a => k a
  end.

(** An integer as an unrounded mantissa with exponent 0. *)
Definition raw_float (n : Z) : spec_float :=
  match n with
  | Z0 => S754_zero false
  | Z.pos p => S754_finite false p 0
  | Z.neg p => S754_finite true p 0
  end.

(** [n / d] on two integers: the float nearest to the exact quotient;
    [ZeroDivisionError] and [OverflowError] are [None]. *)
Definition int_truediv (n d : Z) : option spec_float :=
  if decide (d = 0) then None
  else match SFdiv Py.prec Py.emax (raw_float n) (raw_float d) with
       | S754_infinity _ => None
       | x => Some x
       end.

(** [x / 60] where [x] is an [int] or a [float]. *)
Definition truediv_60 (x : Py.num) : option spec_float :=
  match x with
  | Py.Int n => int_truediv n 60
  | Py.Float y => sixty ← Py.float_of_int 60; Some (Py.fdiv y sixty)
  end.

(** The line feed character and [sep.join(l)]. *)
Definition newline : string := String "010"%char EmptyString.

Fixpoint join (sep : string) (l : list string) : string :=
  match l with
  | [] => ""
  | [x] => x
  | x :: rest => x +:+ sep +:+ join sep rest
  end.

(** [s.count(c)] for a single character [c]. *)
Fixpoint count (c : ascii) (s : string) : nat :=
  match s with
  | EmptyString => 0
  | String a rest => (if decide (a = c) then 1 else 0) + count c rest
  end.

(** [range(0, stop, step)]. *)
Definition range_step (stop step : nat) : list nat :=
  (λ k, k * step)%nat <$> seq 0 ((stop + step - 1) `div` step)%nat.

End PyMore.

(** ** The rest of [ScheduleAnalyzer] *)

Definition minutes_to_hm (minutes : Z) : string :=
  let hours := minutes `div` 60 in
  let mins := minutes `mod` 60 in
  if decide (mins = 0) then pretty hours
  else pretty hours +:+ ":" +:+ Py.fmt_02d mins.

(** One line of the report; Python strings are held as their UTF-8 bytes. *)
Definition report_line (p : interval) : string :=
  "  З " +:+ minutes_to_hm p.1 +:+ " до " +:+ minutes_to_hm p.2.

Definition format_report (day_name : string) (common_periods : list interval) : string :=
  match common_periods with
  | [] => day_name +:+ ": ❌ Нет времени, когда у всех свет одновременно"
  | _ =>
      let lines := [day_name +:+ ": ✅"] in
      let lines := foldl (λ lines p, lines ++ [report_line p]) lines common_periods in
      PyMore.join PyMore.newline lines
  end.

(** ** [YasnoAPI] ([src/yasno_api.py]) *)

(** A slot of the service's answer; its three keys are read with [.get]. A
    ["type"] that is not a string is [None], as a missing one. *)
Record Slot := mkSlot {
  slot_type : option string;
  slot_start : option Py.num;
  slot_end : option Py.num
}.

(** The loop of [_extract_definite_outages]; the constant ["type"] entry of
    the appended dictionaries, which nothing reads, is left out. *)
Fixpoint extract_loop (slots : list Slot) (outages : list Outage) : option (list Outage) :=
  match slots with
  | [] => Some outages
  | slot :: rest =>
      if decide (slot_type slot = Some "Definite") then
        let start_minutes := default (Py.Int 0) (slot_start slot) in
        let end_minutes := default (Py.Int 0) (slot_end slot) in
        start_hour ← PyMore.truediv_60 start_minutes;
        end_hour ← PyMore.truediv_60 end_minutes;
        extract_loop rest
          (outages ++ [mkOutage (Some (Py.Float start_hour)) (Some (Py.Float end_hour))])
      else extract_loop rest outages
  end.

(** [day_data] is given by its ["slots"] entry: an empty dictionary and one
    without that key both yield the empty list. *)
Definition extract_definite_outages (day_slots : option (list Slot)) : option (list Outage) :=
  extract_loop (default [] day_slots) [].

(** [YasnoAPI._format_hour]: only [ValueError] and [TypeError] are caught. *)
Definition format_hour_api (hour : Py.num) : PyMore.exn + string :=
  let body : PyMore.exn + string :=
    match hour with
    | Py.Int n =>
        let hours := n in
        let minutes := (n - hours) * 60 in
        inr (Py.fmt_02d hours +:+ ":" +:+ Py.fmt_02d minutes)
    | Py.Float x =>
        PyMore.bind (PyMore.int_of_float x) (λ hours,
        PyMore.bind (PyMore.float_of_int hours) (λ fhours,
        PyMore.bind (PyMore.float_of_int 60) (λ sixty,
        PyMore.bind (PyMore.int_of_float (Py.fmul (Py.fsub x fhours) sixty)) (λ minutes,
        inr (Py.fmt_02d hours +:+ ":" +:+ Py.fmt_02d minutes)))))
    end in
  match body with
  | inl PyMore.ValueError | inl PyMore.TypeError => inr "??:??"
  | r => r
  end.

(** [YasnoWebParser._format_hour] ([src/yasno_web_parser.py]): the same body
    under a bare [except]. *)
Definition format_hour_web (hour : Py.num) : string :=
  match format_hour_api hour with
  | inr s => s
  | inl _ => "??:??"
  end.

(** ** The debug reply of the bot ([src/telegram_bot_v2.py]) *)

(** The texts sent by [debug_command] for [debug_text], a sequence of
    characters. *)
Definition debug_replies {A} (debug_text : list A) : list (list A) :=
  if decide (4000 < length debug_text)%nat then
    (λ i, take 4000 (drop i debug_text)) <$> PyMore.range_step (length debug_text) 4000
  else [debug_text].

(** ** [ScheduleAnalyzerDebug.debug_schedules] ([src/debug_analyzer.py]) *)

(** An entry of the debug tool: it reads ["username"] and ["group"] with
    [schedule[...]] and ["outages"] with [.get]. *)
Record DebugSchedule := mkDebugSchedule {
  d_username : string;
  d_group : string;
  d_outages : option (list Outage)
}.

(** The first loop: the periods of every user (the class repeats
    [get_outage_intervals] and [get_electricity_periods] word for word; what
    is printed is not modelled). *)
Fixpoint debug_user_periods (schedules : list DebugSchedule)
    (all_user_periods : list (string * list interval))
    : option (list (string * list interval)) :=
  match schedules with
  | [] => Some all_user_periods
  | schedule :: rest =>
      outage_intervals ← get_outage_intervals (default [] (d_outages schedule));
      electricity_periods ← get_electricity_periods (default [] (d_outages schedule));
      debug_user_periods rest
        (all_user_periods ++ [(d_username schedule, electricity_periods)])
  end.

(** [new_common] for one further user. *)
Definition debug_intersect (common : gset (Z * Z)) (periods : list interval)
    : gset (Z * Z) :=
  list_to_set
    (c ← elements common;
     u ← periods;
     let overlap_start := Z.max c.1 u.1 in
     let overlap_end := Z.min c.2 u.2 in
     if decide (overlap_start < overlap_end) then [(overlap_start, overlap_end)] else []).

(** The result is [None] (a bare [return]) for fewer than two users. *)
Definition debug_schedules (schedules : list DebugSchedule)
    : option (option (gset (Z * Z))) :=
  all_user_periods ← debug_user_periods schedules [];
  if decide (length all_user_periods < 2)%nat then Some None
  else
    match all_user_periods with
    | first_user :: others =>
        let common : gset (Z * Z) := list_to_set first_user.2 in
        Some (Some (foldl (λ common user_data, debug_intersect common user_data.2)
                      common others))
    | [] => Some None
    end.

(** Every minute of [m] of a set of periods. *)
Definition covers_set (ps : gset (Z * Z)) (m : Z) : Prop := ∃ p, p ∈ ps ∧ contains p m.

(** A minute of the day sent through the service client and back: divided
    by 60 in [_extract_definite_outages], converted by
    [convert_hour_to_minutes]. *)
Definition minute_roundtrip (m : Z) : option Z :=
  hour ← PyMore.int_truediv m 60;
  convert_hour_to_minutes (Py.Float hour).

(** The round trip loses at most one minute, and none on a quarter hour. *)
Definition roundtrip_check (m : Z) : bool :=
  match minute_roundtrip m with
  | Some r => bool_decide (m - 1 ≤ r ≤ m ∧ (m `mod` 15 = 0 → r = m))
  | None => false
  end.

(** The minutes of a slot whose bounds are integers. *)
Definition slot_minutes (slot : Slot) : list interval :=
  match default (Py.Int 0) (slot_start slot), default (Py.Int 0) (slot_end slot) with
  | Py.Int s, Py.Int e => [(s, e)]
  | _, _ => []
  end.

(** The minute intervals of the ["Definite"] slots, in the order of the slots. *)
Definition definite_minutes (slots : list Slot) : list interval :=
  slot ← slots;
  if decide (slot_type slot = Some "Definite") then slot_minutes slot else [].

(** A ["Definite"] slot with integer bounds on quarter hours of the day. *)
Definition aligned_slot (slot : Slot) : Prop :=
  slot_type slot = Some "Definite" →
  ∃ s e : Z,
    default (Py.Int 0) (slot_start slot) = Py.Int s ∧
    default (Py.Int 0) (slot_end slot) = Py.Int e ∧
    (0 ≤ s ≤ 1440 ∧ s `mod` 15 = 0) ∧ (0 ≤ e ≤ 1440 ∧ e `mod` 15 = 0).

(** The hour part and the minute part the conversion computes for a float. *)
Definition hour_parts (x : spec_float) : option (Z * Z) :=
  hours ← Py.int_of_float x;
  fhours ← Py.float_of_int hours;
  sixty ← Py.float_of_int 60;
  minutes ← Py.int_of_float (Py.fmul (Py.fsub x fhours) sixty);
  Some (hours, minutes).

(** An entry of the bot as the debug tool reads it, with group [group]. *)
Definition to_debug (group : string) (schedule : Schedule) : DebugSchedule :=
  mkDebugSchedule (username schedule) group (outages schedule).

(** Every character of [s] satisfies [P]. *)
Fixpoint string_Forall (P : ascii → Prop) (s : string) : Prop :=
  match s with
  | EmptyString => True
  | String a rest => P a ∧ string_Forall P rest
  end.

(** Neither the colon of the clock strings nor a line feed. *)
Definition plain_char (a : ascii) : Prop := a ≠ ":"%char ∧ a ≠ "010"%char.

(** Closes [well_formed] on a list of literal intervals. *)
Ltac solve_well_formed :=
  split; simpl; repeat constructor; unfold apart; simpl; lia.

(** Closes [well_formed_schedule] on a literal schedule, given its intervals. *)
Ltac solve_well_formed_schedule ivs :=
  exists ivs; split; [vm_compute; reflexivity | solve_well_formed].

(** ** Sorting *)

Section sorting.

Global Instance tuple_le_total : Total Py.tuple_le.
Proof. intros [a1 a2] [b1 b2]. unfold Py.tuple_le. simpl. lia. Qed.

Global Instance tuple_le_trans : Transitive Py.tuple_le.
Proof. intros [a1 a2] [b1 b2] [c1 c2]. unfold Py.tuple_le. simpl. lia. Qed.

Global Instance tuple_le_antisymm : AntiSymm (=) Py.tuple_le.
Proof.
  intros [a1 a2] [b1 b2]. unfold Py.tuple_le. simpl. intros H1 H2.
  f_equal; lia.
Qed.

Lemma sorted_tuples_sorted l : StronglySorted Py.tuple_le (Py.sorted_tuples l).
Proof. apply StronglySorted_merge_sort; apply _. Qed.

Lemma sorted_tuples_perm l : Py.sorted_tuples l ≡ₚ l.
Proof. apply merge_sort_Permutation. Qed.

(** The sorted list depends on the elements only. *)
Lemma sorted_tuples_unique l l' : l ≡ₚ l' → Py.sorted_tuples l = Py.sorted_tuples l'.
Proof.
  intros Hp. apply (StronglySorted_unique Py.tuple_le); auto using sorted_tuples_sorted.
  by rewrite !sorted_tuples_perm.
Qed.

Lemma sorted_set_elem_of (s : gset Z) x : x ∈ Py.sorted_set s ↔ x ∈ s.
Proof.
  unfold Py.sorted_set. by rewrite merge_sort_Permutation, elem_of_elements.
Qed.

(** A sorted set has no repetition: it increases strictly. *)
Lemma sorted_set_increasing (s : gset Z) : StronglySorted Z.lt (Py.sorted_set s).
Proof.
  unfold Py.sorted_set.
  assert (Hnd : NoDup (merge_sort Z.le (elements s))).
  { rewrite merge_sort_Permutation. apply NoDup_elements. }
  assert (Hs : StronglySorted Z.le (merge_sort Z.le (elements s))).
  { apply StronglySorted_merge_sort; apply _. }
  induction Hs as [|x l Hs IH Hx]; [constructor|].
  apply NoDup_cons in Hnd as [Hni Hnd].
  constructor; [by apply IH|].
  apply Forall_forall. intros y Hy.
  rewrite Forall_forall in Hx. specialize (Hx y Hy).
  assert (x ≠ y) by (intros ->; done). lia.
Qed.

End sorting.

(** ** The inversion loop *)

Section inversion.

Lemma gaps_loop_cons a b rest acc :
  gaps_loop (a :: b :: rest) acc =
  gaps_loop (b :: rest) (if decide (a.2 < b.1) then acc ++ [(a.2, b.1)] else acc).
Proof. done. Qed.

Lemma gaps_loop_app ivs acc : gaps_loop ivs acc = acc ++ gaps_loop ivs [].
Proof.
  revert acc. induction ivs as [|a ivs IH]; intros acc.
  { by rewrite app_nil_r. }
  destruct ivs as [|b rest].
  { simpl. by rewrite app_nil_r. }
  rewrite !gaps_loop_cons. rewrite IH. rewrite (IH (if decide (a.2 < b.1) then _ else _)).
  case_decide; simpl; by rewrite <- ?app_assoc.
Qed.

(** The loop computes the complement started after the first outage, but for
    the closing window. *)
Lemma gaps_loop_complement a rest final :
  last (a :: rest) = Some final →
  gaps_loop (a :: rest) [] ++
    (if decide (final.2 < 24 * 60) then [(final.2, 24 * 60)] else [])
  = complement a.2 rest.
Proof.
  revert a. induction rest as [|b rest IH]; intros a Hl.
  - simpl in *. simplify_eq. change (24 * 60) with 1440. by case_decide.
  - rewrite last_cons_cons in Hl. specialize (IH b Hl).
    rewrite gaps_loop_cons, gaps_loop_app.
    cbn [complement]. rewrite <- IH.
    case_decide; simpl; by rewrite <- ?app_assoc.
Qed.

(** [get_electricity_periods] after the conversion is the complement within
    the day. *)
Lemma invert_intervals_complement ivs : invert_intervals ivs = complement 0 ivs.
Proof.
  destruct ivs as [|a rest]; [done|].
  unfold invert_intervals.
  destruct (last (a :: rest)) as [final|] eqn:Hl.
  2:{ apply last_None in Hl. done. }
  rewrite gaps_loop_app.
  pose proof (gaps_loop_complement a rest final Hl) as Hc.
  simpl complement. rewrite <- Hc.
  repeat case_decide; try lia; simpl; rewrite ?app_nil_r; try done;
    by rewrite <- ?app_assoc.
Qed.

End inversion.

(** ** Lists of intervals *)

Section intervals.

Lemma covers_nil m : covers [] m ↔ False.
Proof. unfold covers. split; [|done]. intros (p & Hp & _). by apply elem_of_nil in Hp. Qed.

Lemma covers_cons p ps m : covers (p :: ps) m ↔ contains p m ∨ covers ps m.
Proof.
  unfold covers. split.
  - intros (q & Hq & Hc). apply elem_of_cons in Hq as [->|Hq]; eauto.
  - intros [Hc|(q & Hq & Hc)]; [exists p|exists q]; split; auto; set_solver.
Qed.

Lemma covers_app ps qs m : covers (ps ++ qs) m ↔ covers ps m ∨ covers qs m.
Proof.
  unfold covers. split.
  - intros (p & [Hp|Hp]%elem_of_app & Hc); [left|right]; eauto.
  - intros [(p & Hp & Hc)|(p & Hp & Hc)]; exists p; rewrite elem_of_app; auto.
Qed.

Lemma covers_singleton p m : covers [p] m ↔ contains p m.
Proof. rewrite covers_cons, covers_nil. tauto. Qed.

(** In a strongly sorted list an earlier position is related to a later one. *)
Lemma StronglySorted_lookup {A} (R : relation A) l (i j : nat) a b :
  StronglySorted R l → (i < j)%nat → l !! i = Some a → l !! j = Some b → R a b.
Proof.
  intros Hs. revert i j. induction Hs as [|x l Hs IH Hx]; intros i j Hij Hi Hj.
  { done. }
  destruct j as [|j]; [lia|]. simpl in Hj.
  destruct i as [|i]; simpl in Hi.
  - simplify_eq. rewrite Forall_forall in Hx. apply Hx.
    apply list_elem_of_lookup. eauto.
  - apply (IH i j); auto. lia.
Qed.

Lemma separated_sorted_ascending ps :
  separated ps → all_nonempty ps → sorted_ascending ps.
Proof.
  unfold separated, all_nonempty, sorted_ascending.
  induction 1 as [|x l Hs IH Hx]; intros Hne; [constructor|].
  apply Forall_cons in Hne as [Hx1 Hne].
  constructor; [by apply IH|].
  eapply Forall_impl; [exact Hx|]. simpl. intros y Hy. lia.
Qed.

Lemma separated_pairwise_disjoint ps : separated ps → pairwise_disjoint ps.
Proof.
  intros Hs i j a b Hij Hi Hj m [Ha Hb]. unfold contains in *.
  destruct (decide (i < j)%nat).
  - pose proof (StronglySorted_lookup _ _ i j a b Hs ltac:(lia) Hi Hj). simpl in *. lia.
  - pose proof (StronglySorted_lookup _ _ j i b a Hs ltac:(lia) Hj Hi). simpl in *. lia.
Qed.

Lemma pairwise_Permutation {A} (R : A → A → Prop) l l' :
  (∀ x y, R x y → R y x) → l ≡ₚ l' → pairwise R l → pairwise R l'.
Proof.
  intros Hsym Hp. induction Hp as [|x l l' Hp IH|x y l|l l' l'' Hp1 IH1 Hp2 IH2]; simpl.
  - done.
  - intros [Hx Hl]. split; [by rewrite <- Hp|auto].
  - intros [Hy [Hx Hl]]. apply Forall_cons in Hy as [Hyx Hy].
    repeat split; auto.
  - auto.
Qed.

Lemma apart_sym a b : apart a b → apart b a.
Proof. unfold apart. lia. Qed.

Lemma well_formed_Permutation l l' : l ≡ₚ l' → well_formed l → well_formed l'.
Proof.
  intros Hp [Hb Hd]. split.
  - by rewrite <- Hp.
  - eapply pairwise_Permutation; eauto using apart_sym.
Qed.

(** Sorted well-formed outages follow one another. *)
Lemma well_formed_chain lo ivs :
  lo ≤ 1440 →
  Forall (λ iv : interval, lo ≤ iv.1 ∧ iv.1 < iv.2 ∧ iv.2 ≤ 1440) ivs →
  pairwise apart ivs →
  StronglySorted Py.tuple_le ivs →
  chain lo ivs.
Proof.
  intros Hlo Hb Hd Hs. revert lo Hlo Hb Hd.
  induction Hs as [|iv rest Hs IH Hx]; intros lo Hlo Hb Hd; simpl; [done|].
  apply Forall_cons in Hb as [(H1 & H2 & H3) Hb].
  destruct Hd as [Hiv Hd].
  repeat split; auto. apply IH; auto.
  rewrite Forall_forall in *. intros iv' Hin.
  specialize (Hb _ Hin). specialize (Hx _ Hin). specialize (Hiv _ Hin).
  unfold apart, Py.tuple_le in *. lia.
Qed.

(** Along a chain, outages and complement windows partition [lo, 1440). *)
Lemma complement_partition lo ivs m :
  chain lo ivs →
  Forall (λ iv : interval, iv.2 ≤ 1440) ivs →
  (covers ivs m ∨ covers (complement lo ivs) m ↔ lo ≤ m < 1440) ∧
  ¬ (covers ivs m ∧ covers (complement lo ivs) m).
Proof.
  revert lo. induction ivs as [|iv rest IH]; intros lo Hc Hb; simpl in *.
  - rewrite covers_nil. case_decide.
    + rewrite covers_singleton. unfold contains. simpl. lia.
    + rewrite covers_nil. lia.
  - destruct Hc as (H1 & H2 & Hc). apply Forall_cons in Hb as [H3 Hb].
    destruct (IH _ Hc Hb) as [IH1 IH2].
    rewrite covers_cons, covers_app.
    case_decide.
    + rewrite covers_singleton. unfold contains. simpl. split; [|intuition lia].
      split; [intuition lia|]. intros ?.
      destruct (decide (iv.2 ≤ m)); [|lia].
      assert (covers rest m ∨ covers (complement iv.2 rest) m) by (apply IH1; lia).
      tauto.
    + rewrite covers_nil. unfold contains. split; [|intuition lia].
      split; [intuition lia|]. intros ?.
      destruct (decide (iv.2 ≤ m)); [|lia].
      assert (covers rest m ∨ covers (complement iv.2 rest) m) by (apply IH1; lia).
      tauto.
Qed.

Lemma complement_nonempty lo ivs : all_nonempty (complement lo ivs).
Proof.
  unfold all_nonempty. revert lo. induction ivs as [|iv rest IH]; intros lo; simpl.
  - case_decide; repeat constructor. simpl. lia.
  - apply Forall_app. split; [|apply IH].
    case_decide; repeat constructor. simpl. lia.
Qed.

(** A window starts at [lo] or where an outage ends. *)
Lemma complement_lower b lo ivs :
  b ≤ lo → Forall (λ iv : interval, b ≤ iv.2) ivs →
  Forall (λ w : interval, b ≤ w.1) (complement lo ivs).
Proof.
  revert lo. induction ivs as [|iv rest IH]; intros lo Hlo Hb; simpl.
  - case_decide; repeat constructor. done.
  - apply Forall_cons in Hb as [H1 Hb]. apply Forall_app. split; [|by apply IH].
    case_decide; repeat constructor. done.
Qed.

Lemma complement_separated lo ivs :
  StronglySorted Py.tuple_le ivs →
  Forall (λ iv : interval, iv.1 ≤ iv.2) ivs →
  separated (complement lo ivs).
Proof.
  unfold separated. intros Hs. revert lo.
  induction Hs as [|iv rest Hs IH Hx]; intros lo Hb; simpl.
  - case_decide; repeat constructor.
  - apply Forall_cons in Hb as [H1 Hb].
    case_decide; simpl; [|by apply IH].
    constructor; [by apply IH|].
    apply (complement_lower iv.1); [done|].
    rewrite Forall_forall in *. intros iv' Hin.
    specialize (Hb _ Hin). specialize (Hx _ Hin). unfold Py.tuple_le in Hx. lia.
Qed.

End intervals.

(** ** The Availability Deriver *)

Section availability.

Lemma mapM_Permutation {A B} (f : A → option B) l l' :
  l ≡ₚ l' →
  match mapM f l, mapM f l' with
  | Some k, Some k' => k ≡ₚ k'
  | None, None => True
  | _, _ => False
  end.
Proof.
  induction 1 as [|x l l' Hp IH|x y l|l l' l'' Hp1 IH1 Hp2 IH2]; simpl.
  - done.
  - destruct (f x); simpl; [|done].
    destruct (mapM f l), (mapM f l'); simpl; try done. by constructor.
  - destruct (f x), (f y); simpl; try done;
      destruct (mapM f l); simpl; try done. apply perm_swap.
  - destruct (mapM f l), (mapM f l'), (mapM f l''); try done. by etrans.
Qed.

Lemma get_outage_intervals_Permutation outages outages' :
  outages ≡ₚ outages' → get_outage_intervals outages = get_outage_intervals outages'.
Proof.
  intros Hp. unfold get_outage_intervals.
  pose proof (mapM_Permutation outage_interval _ _ Hp) as Hm.
  destruct (mapM outage_interval outages), (mapM outage_interval outages');
    simpl; try done.
  f_equal. by apply sorted_tuples_unique.
Qed.

Lemma get_outage_intervals_sorted outages ivs :
  get_outage_intervals outages = Some ivs → StronglySorted Py.tuple_le ivs.
Proof.
  unfold get_outage_intervals. intros H.
  destruct (mapM outage_interval outages); simplify_eq/=.
  apply sorted_tuples_sorted.
Qed.

Lemma get_electricity_periods_Some outages ivs :
  get_outage_intervals outages = Some ivs →
  get_electricity_periods outages = Some (complement 0 ivs).
Proof.
  intros H. unfold get_electricity_periods. rewrite H. simpl.
  by rewrite invert_intervals_complement.
Qed.

Lemma get_electricity_periods_inv outages ws :
  get_electricity_periods outages = Some ws →
  ∃ ivs, get_outage_intervals outages = Some ivs ∧ ws = complement 0 ivs.
Proof.
  unfold get_electricity_periods. intros H.
  destruct (get_outage_intervals outages) as [ivs|]; simplify_eq/=.
  exists ivs. by rewrite invert_intervals_complement.
Qed.

Lemma well_formed_sorted_chain ivs :
  well_formed ivs → StronglySorted Py.tuple_le ivs → chain 0 ivs.
Proof.
  intros [Hb Hd] Hs. apply well_formed_chain; auto. lia.
Qed.

Lemma well_formed_upper ivs :
  well_formed ivs → Forall (λ iv : interval, iv.2 ≤ 1440) ivs.
Proof. intros [Hb _]. eapply Forall_impl; [exact Hb|]. simpl. intros. lia. Qed.

End availability.

(** ** Properties of the Availability Deriver *)

(** C2. For a well-formed outage list of one user, the outage intervals and the
    windows of [get_electricity_periods] cover exactly the minutes of
    [0, 1440): every minute of the day is in an outage or in a window, no
    minute outside the day is in either, and no minute is in both. *)
Theorem availability_partition (outages : list Outage) (ivs : list interval) :
  get_outage_intervals outages = Some ivs →
  well_formed ivs →
  ∃ ws, get_electricity_periods outages = Some ws ∧
    ∀ m : Z,
      (covers ivs m ∨ covers ws m ↔ 0 ≤ m < 1440) ∧
      ¬ (covers ivs m ∧ covers ws m).
Proof.
  intros Hivs Hwf. exists (complement 0 ivs).
  split; [by apply get_electricity_periods_Some|].
  intros m. apply complement_partition.
  - apply well_formed_sorted_chain; [done|]. by eapply get_outage_intervals_sorted.
  - by apply well_formed_upper.
Qed.

Lemma availability_partition_witness :
  get_outage_intervals (default [] (outages user_A))
    = Some [(90, 300); (720, 930); (1350, 1440)] ∧
  well_formed [(90, 300); (720, 930); (1350, 1440)] ∧
  ∃ ws, get_electricity_periods (default [] (outages user_A)) = Some ws ∧
    ∀ m : Z,
      (covers [(90, 300); (720, 930); (1350, 1440)] m ∨ covers ws m ↔ 0 ≤ m < 1440) ∧
      ¬ (covers [(90, 300); (720, 930); (1350, 1440)] m ∧ covers ws m).
Proof.
  assert (Hc : get_outage_intervals (default [] (outages user_A))
    = Some [(90, 300); (720, 930); (1350, 1440)]) by (vm_compute; reflexivity).
  assert (Hw : well_formed [(90, 300); (720, 930); (1350, 1440)]).
  { solve_well_formed. }
  split; [exact Hc|]. split; [exact Hw|].
  exact (availability_partition _ _ Hc Hw).
Defined.

(** C7. The windows of [get_electricity_periods] do not depend on the order in
    which the outages are supplied. *)
Theorem availability_permutation (outages outages' : list Outage) :
  outages ≡ₚ outages' →
  get_electricity_periods outages = get_electricity_periods outages'.
Proof.
  intros Hp. unfold get_electricity_periods.
  by rewrite (get_outage_intervals_Permutation _ _ Hp).
Qed.

Lemma availability_permutation_witness :
  [mkOutage (hours 12) (half_past 15); mkOutage (half_past 1) (hours 5)]
    ≡ₚ [mkOutage (half_past 1) (hours 5); mkOutage (hours 12) (half_past 15)] ∧
  get_electricity_periods
    [mkOutage (hours 12) (half_past 15); mkOutage (half_past 1) (hours 5)]
  = get_electricity_periods
    [mkOutage (half_past 1) (hours 5); mkOutage (hours 12) (half_past 15)].
Proof.
  split; [apply perm_swap|].
  apply availability_permutation. apply perm_swap.
Defined.

(** C8, as the code has it. Whatever the outage list, no window of
    [get_electricity_periods] is empty or of negative length; and when every
    converted outage has its start no later than its end, the windows are
    sorted ascending by start and pairwise non-overlapping. *)
Theorem availability_windows_ordered (outages : list Outage) (ivs : list interval) :
  get_outage_intervals outages = Some ivs →
  ∃ ws, get_electricity_periods outages = Some ws ∧
    all_nonempty ws ∧
    (Forall (λ iv : interval, iv.1 ≤ iv.2) ivs →
     sorted_ascending ws ∧ pairwise_disjoint ws).
Proof.
  intros Hivs. exists (complement 0 ivs).
  split; [by apply get_electricity_periods_Some|].
  split; [apply complement_nonempty|].
  intros Hle.
  assert (separated (complement 0 ivs)) as Hsep.
  { apply complement_separated; [|done]. by eapply get_outage_intervals_sorted. }
  split.
  - apply separated_sorted_ascending; [done|apply complement_nonempty].
  - by apply separated_pairwise_disjoint.
Qed.

Lemma availability_windows_ordered_witness :
  get_outage_intervals (default [] (outages user_B))
    = Some [(0, 90); (510, 720); (1140, 1350)] ∧
  ∃ ws, get_electricity_periods (default [] (outages user_B)) = Some ws ∧
    all_nonempty ws ∧
    (Forall (λ iv : interval, iv.1 ≤ iv.2) [(0, 90); (510, 720); (1140, 1350)] →
     sorted_ascending ws ∧ pairwise_disjoint ws).
Proof.
  assert (Hc : get_outage_intervals (default [] (outages user_B))
    = Some [(0, 90); (510, 720); (1140, 1350)]) by (vm_compute; reflexivity).
  split; [exact Hc|].
  exact (availability_windows_ordered _ _ Hc).
Defined.

(** C8 as stated fails: for the malformed outage from 10:00 to 05:00 the two
    windows returned are [0, 600) and [300, 1440), which overlap. *)
Lemma availability_windows_overlap_malformed :
  get_electricity_periods [backwards_outage] = Some [(0, 600); (300, 1440)] ∧
  ¬ pairwise_disjoint [(0, 600); (300, 1440)].
Proof.
  split; [vm_compute; reflexivity|].
  intros Hd. apply (Hd 0%nat 1%nat (0, 600) (300, 1440) ltac:(lia) eq_refl eq_refl 300).
  unfold contains. simpl. lia.
Qed.

(** ** The sweep of the Intersection Engine *)

Section engine.

Lemma has_power_covers ws p : has_power ws p = true ↔ covers ws p.
Proof.
  unfold has_power, covers. rewrite existsb_exists.
  setoid_rewrite bool_decide_eq_true. setoid_rewrite list_elem_of_In.
  unfold contains. done.
Qed.

Lemma all_have_power_Some schedules wss p :
  mapM windows_of schedules = Some wss →
  ∃ b : bool, all_have_power schedules p = Some b ∧ (b = true ↔ everyone wss p).
Proof.
  unfold everyone. intros Hm%mapM_Some.
  induction Hm as [|s ws rest wss' Hs Hm IH].
  - exists true. split; [done|]. split; [constructor|done].
  - unfold windows_of in Hs. simpl. rewrite Hs. simpl.
    destruct IH as (b & Hb & Hiff).
    destruct (has_power ws p) eqn:Hp.
    + exists b. split; [done|]. rewrite Forall_cons, <- Hiff.
      apply has_power_covers in Hp. tauto.
    + exists false. split; [done|]. split; [done|].
      intros [Hc _]%Forall_cons. apply has_power_covers in Hc. congruence.
Qed.

Lemma elem_of_add_points (points : gset Z) ws x :
  x ∈ add_points points ws ↔ x ∈ points ∨ ∃ w, w ∈ ws ∧ (x = w.1 ∨ x = w.2).
Proof.
  unfold add_points. revert points. induction ws as [|w ws IH]; intros points; simpl.
  - split; [auto|]. intros [?|(w & Hw & _)]; [done|]. by apply elem_of_nil in Hw.
  - rewrite IH. rewrite !elem_of_union, !elem_of_singleton.
    split.
    + intros [[?|[?|?]]|(w' & Hw' & Hx)]; eauto.
      * right. exists w. split; [left|]; auto.
      * right. exists w. split; [left|]; auto.
      * right. exists w'. split; [by right|]; auto.
    + intros [?|(w' & Hw' & Hx)]; [auto|].
      apply elem_of_cons in Hw' as [->|Hw']; [|eauto].
      left. tauto.
Qed.

Lemma collect_points_Some schedules wss points :
  mapM windows_of schedules = Some wss →
  ∃ all_points, collect_points schedules points = Some all_points ∧
    ∀ x, x ∈ all_points ↔
      x ∈ points ∨ ∃ ws w, ws ∈ wss ∧ w ∈ ws ∧ (x = w.1 ∨ x = w.2).
Proof.
  intros Hm%mapM_Some. revert points.
  induction Hm as [|s ws rest wss' Hs Hm IH]; intros points.
  - exists points. split; [done|].
    intros x. split; [auto|]. intros [?|(ws & w & Hws & _)]; [done|].
    by apply elem_of_nil in Hws.
  - unfold windows_of in Hs. simpl. rewrite Hs. simpl.
    destruct (IH (add_points points ws)) as (all_points & Hc & Hiff).
    exists all_points. split; [done|].
    intros x. rewrite Hiff, elem_of_add_points. split.
    + intros [[?|(w & Hw & Hx)]|(ws' & w & Hws' & Hw & Hx)]; [auto|..].
      * right. exists ws, w. split; [left|]; auto.
      * right. exists ws', w. split; [by right|]; auto.
    + intros [?|(ws' & w & Hws' & Hw & Hx)]; [auto|].
      apply elem_of_cons in Hws' as [->|Hws']; [left; right; eauto|].
      right. eauto.
Qed.

Lemma set_last_snoc (l : list interval) f x : set_last (l ++ [f]) x = l ++ [x].
Proof.
  unfold set_last. rewrite length_app. simpl.
  replace (pred (length l + 1)) with (length l + 0)%nat by lia.
  by rewrite insert_app_r.
Qed.

Lemma add_period_nil p q : add_period [] p q = [(p, q)].
Proof. done. Qed.

Lemma add_period_snoc l f p q :
  add_period (l ++ [f]) p q =
  if decide (f.2 = p) then l ++ [(f.1, q)] else (l ++ [f]) ++ [(p, q)].
Proof.
  unfold add_period. rewrite last_snoc. case_decide; [|done].
  apply set_last_snoc.
Qed.

Lemma add_period_inv acc p q :
  sweep_inv acc p → p < q → sweep_inv (add_period acc p q) q.
Proof.
  unfold sweep_inv, strictly_separated, all_nonempty.
  intros (Hs & Hne & Hle) Hpq.
  destruct (last acc) as [f|] eqn:Hl.
  - apply last_Some in Hl as [l ->]. rewrite add_period_snoc.
    apply StronglySorted_app in Hs as (Hlf & Hsl & _).
    apply Forall_app in Hne as [Hnel Hnef]. rewrite Forall_singleton in Hnef.
    simpl in Hnef.
    apply Forall_app in Hle as [Hlel Hlef]. rewrite Forall_singleton in Hlef.
    simpl in Hlef.
    assert (Hbefore : ∀ a, a ∈ l → a.2 < f.1).
    { intros a Ha. apply Hlf; [done|]. by apply list_elem_of_singleton. }
    case_decide.
    + split; [|split].
      * apply StronglySorted_app. split; [|split; [done|repeat constructor]].
        intros a b Ha ->%list_elem_of_singleton. simpl. by apply Hbefore.
      * apply Forall_app. split; [done|]. apply Forall_singleton. simpl. lia.
      * apply Forall_app. split.
        -- eapply Forall_impl; [exact Hlel|]. simpl. intros. lia.
        -- apply Forall_singleton. simpl. lia.
    + split; [|split].
      * apply StronglySorted_app. split; [|split; [|repeat constructor]].
        -- intros a b Ha ->%list_elem_of_singleton. simpl.
           apply elem_of_app in Ha as [Ha| ->%list_elem_of_singleton]; [|lia].
           specialize (Hbefore _ Ha). lia.
        -- apply StronglySorted_app. split; [|split; [done|repeat constructor]].
           intros a b Ha ->%list_elem_of_singleton. by apply Hbefore.
      * rewrite !Forall_app, !Forall_singleton. simpl. auto.
      * rewrite !Forall_app, !Forall_singleton. simpl.
        split; [split|]; [|lia..].
        eapply Forall_impl; [exact Hlel|]. simpl. intros. lia.
  - apply last_None in Hl as ->. rewrite add_period_nil.
    repeat split; repeat constructor; simpl; lia.
Qed.

Lemma add_period_covers acc p q m :
  sweep_inv acc p → p < q →
  covers (add_period acc p q) m ↔ covers acc m ∨ p ≤ m < q.
Proof.
  unfold sweep_inv, all_nonempty. intros (Hs & Hne & Hle) Hpq.
  destruct (last acc) as [f|] eqn:Hl.
  - apply last_Some in Hl as [l ->]. rewrite add_period_snoc.
    apply Forall_app in Hne as [Hnel Hnef]. rewrite Forall_singleton in Hnef.
    simpl in Hnef.
    case_decide.
    + rewrite !covers_app, !covers_singleton. unfold contains. simpl. intuition lia.
    + rewrite !covers_app, !covers_singleton. unfold contains. simpl. intuition lia.
  - apply last_None in Hl as ->. rewrite add_period_nil.
    rewrite covers_singleton, covers_nil. unfold contains. simpl. intuition lia.
Qed.

Lemma sweep_cons schedules p q rest acc :
  sweep schedules (p :: q :: rest) acc =
  ok ← all_have_power schedules p;
  sweep schedules (q :: rest) (if ok : bool then add_period acc p q else acc).
Proof. done. Qed.

Lemma sweep_inv_weaken acc p q : sweep_inv acc p → p ≤ q → sweep_inv acc q.
Proof.
  intros (Hs & Hne & Hle) Hpq. repeat split; auto.
  eapply Forall_impl; [exact Hle|]. simpl. intros. lia.
Qed.

(** The sweep over increasing boundaries [p0 :: pts] adds to the periods
    found so far exactly the minutes between the first and the last boundary
    at which everyone has power, and keeps the periods apart. *)
Lemma sweep_spec schedules wss pts :
  mapM windows_of schedules = Some wss →
  ∀ p0 acc,
    StronglySorted Z.lt (p0 :: pts) →
    const_on wss (p0 :: pts) →
    sweep_inv acc p0 →
    ∃ res plast,
      sweep schedules (p0 :: pts) acc = Some res ∧
      last (p0 :: pts) = Some plast ∧
      p0 ≤ plast ∧
      sweep_inv res plast ∧
      ∀ m, covers res m ↔ covers acc m ∨ (p0 ≤ m < plast ∧ everyone wss m).
Proof.
  intros Hm. induction pts as [|q rest IH]; intros p0 acc Hs Hc Hinv.
  - exists acc, p0.
    split; [done|]. split; [done|]. split; [lia|]. split; [done|].
    intros m. split; [auto|]. intros [?|[? _]]; [done|lia].
  - apply StronglySorted_cons in Hs as [Hp0 Hs].
    pose proof Hp0 as [Hpq _]%Forall_cons.
    destruct Hc as [Hconst Hc].
    destruct (all_have_power_Some schedules wss p0 Hm) as (b & Hb & Hiff).
    rewrite last_cons_cons, sweep_cons, Hb. simpl.
    set (acc' := if b then add_period acc p0 q else acc).
    assert (Hinv' : sweep_inv acc' q).
    { subst acc'. destruct b; [by apply add_period_inv|].
      apply (sweep_inv_weaken _ p0); [done|lia]. }
    destruct (IH q acc' Hs Hc Hinv') as (res & plast & Hres & Hlast & Hle & Hri & Hcov).
    exists res, plast.
    split; [done|]. split; [done|]. split; [lia|]. split; [done|].
    intros m. split.
    + intros Hr. apply Hcov in Hr as [Ha|[Hr He]].
      * subst acc'. destruct b.
        -- apply add_period_covers in Ha as [?|?]; auto.
           right. split; [lia|]. apply (Hconst m); [lia|]. by apply Hiff.
        -- by left.
      * right. split; [lia|done].
    + intros [Ha|[Hr He]]; apply Hcov.
      * left. subst acc'. destruct b; [|done].
        apply add_period_covers; auto.
      * destruct (decide (m < q)); [|right; split; [lia|done]].
        left. subst acc'.
        assert (b = true) as ->.
        { apply Hiff. apply (Hconst m); [lia|done]. }
        apply add_period_covers; auto. right. lia.
Qed.

(** Boundaries that contain every end point of every window cut the day into
    pieces on which the answer of every user is constant. *)
Lemma const_on_sorted wss pre pts :
  StronglySorted Z.lt (pre ++ pts) →
  (∀ ws w, ws ∈ wss → w ∈ ws → w.1 ∈ pre ++ pts ∧ w.2 ∈ pre ++ pts) →
  const_on wss pts.
Proof.
  revert pre. induction pts as [|p pts IH]; intros pre Hs Hb; [done|].
  destruct pts as [|q rest]; [done|].
  split.
  - assert (Hadj : ∀ x, x ∈ pre ++ p :: q :: rest → x ≤ p ∨ q ≤ x).
    { apply StronglySorted_app in Hs as (Hpre & _ & Hs).
      apply StronglySorted_cons in Hs as [Hp Hs].
      apply StronglySorted_cons in Hs as [Hq _].
      rewrite Forall_forall in Hp, Hq.
      intros x [Hx|Hx]%elem_of_app.
      - left. apply Z.lt_le_incl, Hpre; [done|left].
      - apply elem_of_cons in Hx as [->|Hx]; [lia|].
        apply elem_of_cons in Hx as [->|Hx]; [lia|].
        right. apply Z.lt_le_incl. by apply Hq. }
    assert (Hpq : p < q).
    { apply StronglySorted_app in Hs as (_ & _ & Hs).
      apply StronglySorted_cons in Hs as [[Hp _]%Forall_cons _]. done. }
    intros m Hm. unfold everyone. rewrite !Forall_forall.
    assert (Hw : ∀ ws, ws ∈ wss → covers ws m ↔ covers ws p).
    { intros ws Hws. unfold covers, contains.
      split; intros (w & Hw & Hc); exists w; (split; [done|]);
        destruct (Hb _ _ Hws Hw) as [H1 H2];
        apply Hadj in H1; apply Hadj in H2; lia. }
    split; intros H ws Hws; apply Hw; auto.
  - apply (IH (pre ++ [p])); rewrite <- app_assoc; done.
Qed.

Lemma sorted_set_head (s : gset Z) lo :
  lo ∈ s → (∀ x, x ∈ s → lo ≤ x) → ∃ rest, Py.sorted_set s = lo :: rest.
Proof.
  intros Hin Hmin.
  pose proof (sorted_set_increasing s) as Hs.
  apply sorted_set_elem_of in Hin.
  destruct (Py.sorted_set s) as [|h rest] eqn:Heq; [by apply elem_of_nil in Hin|].
  exists rest. f_equal.
  assert (lo ≤ h).
  { apply Hmin, sorted_set_elem_of. rewrite Heq. left. }
  apply StronglySorted_cons in Hs as [Hh _]. rewrite Forall_forall in Hh.
  apply elem_of_cons in Hin as [->|Hin]; [done|].
  specialize (Hh _ Hin). lia.
Qed.

Lemma sorted_set_last (s : gset Z) hi :
  hi ∈ s → (∀ x, x ∈ s → x ≤ hi) → last (Py.sorted_set s) = Some hi.
Proof.
  intros Hin Hmax.
  pose proof (sorted_set_increasing s) as Hs.
  apply sorted_set_elem_of in Hin.
  destruct (last (Py.sorted_set s)) as [z|] eqn:Heq.
  2:{ apply last_None in Heq. rewrite Heq in Hin. by apply elem_of_nil in Hin. }
  f_equal. apply last_Some in Heq as [l Heq].
  assert (z ≤ hi).
  { apply Hmax, sorted_set_elem_of. rewrite Heq. apply elem_of_app. right. left. }
  rewrite Heq in Hs, Hin.
  apply StronglySorted_app in Hs as (Hlz & _ & _).
  apply elem_of_app in Hin as [Hin|Hin%list_elem_of_singleton]; [|done].
  specialize (Hlz hi z Hin ltac:(left)). lia.
Qed.

Lemma complement_bounds lo ivs :
  chain lo ivs →
  Forall (λ iv : interval, iv.2 ≤ 1440) ivs →
  Forall (λ w : interval, lo ≤ w.1 ∧ w.2 ≤ 1440) (complement lo ivs).
Proof.
  revert lo. induction ivs as [|iv rest IH]; intros lo Hc Hb; simpl in *.
  - case_decide; repeat constructor; simpl; lia.
  - destruct Hc as (H1 & H2 & Hc). apply Forall_cons in Hb as [H3 Hb].
    apply Forall_app. split.
    + case_decide; repeat constructor; simpl; lia.
    + eapply Forall_impl; [apply IH; done|]. simpl. intros. lia.
Qed.

Lemma strictly_separated_maximal ps : strictly_separated ps → maximal ps.
Proof.
  intros Hs i a b Hi Hj.
  pose proof (StronglySorted_lookup _ _ i (S i) a b Hs ltac:(lia) Hi Hj). simpl in *. lia.
Qed.

Lemma strictly_separated_separated ps : strictly_separated ps → separated ps.
Proof.
  unfold strictly_separated, separated.
  induction 1 as [|x l Hs IH Hx]; constructor; auto.
  eapply Forall_impl; [exact Hx|]. simpl. intros. lia.
Qed.

End engine.

(** ** Properties of the Intersection Engine *)

Section intersection.

Lemma find_common_many s1 s2 rest :
  find_common_electricity_periods (s1 :: s2 :: rest) =
  all_points ← collect_points (s1 :: s2 :: rest) {[0; 24 * 60]};
  common_periods ← sweep (s1 :: s2 :: rest) (Py.sorted_set all_points) [];
  Some (common_periods, []).
Proof. done. Qed.

Lemma sweep_total schedules wss pts acc :
  mapM windows_of schedules = Some wss → is_Some (sweep schedules pts acc).
Proof.
  intros Hm. revert acc. induction pts as [|p pts IH]; intros acc; [done|].
  destruct pts as [|q rest]; [done|].
  rewrite sweep_cons.
  destruct (all_have_power_Some schedules wss p Hm) as (b & -> & _). simpl.
  apply IH.
Qed.

Lemma collect_points_None schedules points :
  Exists (λ s, windows_of s = None) schedules → collect_points schedules points = None.
Proof.
  intros He. revert points. induction He as [s rest Hs|s rest He IH]; intros points; simpl.
  - unfold windows_of in Hs. by rewrite Hs.
  - destruct (get_electricity_periods (default [] (outages s))); simpl; [apply IH|done].
Qed.

Lemma windows_of_None s :
  windows_of s = None → get_outage_intervals (default [] (outages s)) = None.
Proof.
  unfold windows_of, get_electricity_periods.
  by destruct (get_outage_intervals (default [] (outages s))).
Qed.

Lemma everyone_iff schedules wss m :
  Forall2 (λ s ws, windows_of s = Some ws) schedules wss →
  everyone wss m ↔
  ∀ s, s ∈ schedules → ∃ ws, windows_of s = Some ws ∧ covers ws m.
Proof.
  unfold everyone. induction 1 as [|s ws schedules wss Hs H2 IH].
  - split; [|constructor]. intros _ s Hin. by apply elem_of_nil in Hin.
  - rewrite Forall_cons, IH. split.
    + intros [Hc Hall] s' [->|Hin]%elem_of_cons; eauto.
    + intros Hall. split.
      * destruct (Hall s ltac:(left)) as (ws' & Hws' & Hc). congruence.
      * intros s' Hin. apply Hall. by right.
Qed.

(** The engine on at least two entries whose windows lie within the day. *)
Lemma find_common_spec schedules wss :
  (2 ≤ length schedules)%nat →
  mapM windows_of schedules = Some wss →
  (∀ ws w, ws ∈ wss → w ∈ ws → 0 ≤ w.1 ≤ 1440 ∧ 0 ≤ w.2 ≤ 1440) →
  ∃ ps, find_common_electricity_periods schedules = Some (ps, []) ∧
    strictly_separated ps ∧ all_nonempty ps ∧
    ∀ m, covers ps m ↔ 0 ≤ m < 1440 ∧ everyone wss m.
Proof.
  intros Hlen Hm Hb.
  destruct schedules as [|s1 [|s2 rest]]; simpl in Hlen; [lia..|].
  rewrite find_common_many. change (24 * 60) with 1440.
  destruct (collect_points_Some _ _ {[0; 1440]} Hm) as (all_points & -> & Hpts).
  simpl.
  assert (H0 : 0 ∈ all_points) by (apply Hpts; left; set_solver).
  assert (H1440 : 1440 ∈ all_points) by (apply Hpts; left; set_solver).
  assert (Hrange : ∀ x, x ∈ all_points → 0 ≤ x ≤ 1440).
  { intros x [Hx|(ws & w & Hws & Hw & Hx)]%Hpts.
    - apply elem_of_union in Hx as [Hx|Hx]; apply elem_of_singleton in Hx; lia.
    - specialize (Hb _ _ Hws Hw). lia. }
  destruct (sorted_set_head all_points 0 H0) as [pts Hhead].
  { intros x Hx. apply Hrange in Hx. lia. }
  pose proof (sorted_set_last all_points 1440 H1440) as Hlast.
  rewrite Hhead in Hlast.
  pose proof (sorted_set_increasing all_points) as Hinc. rewrite Hhead in Hinc.
  assert (Hconst : const_on wss (0 :: pts)).
  { apply (const_on_sorted wss []); [done|]. simpl. rewrite <- Hhead.
    intros ws w Hws Hw. rewrite !sorted_set_elem_of.
    split; apply Hpts; right; exists ws, w; auto. }
  assert (Hinv : sweep_inv [] 0).
  { repeat split; constructor. }
  destruct (sweep_spec _ _ pts Hm 0 [] Hinc Hconst Hinv)
    as (res & plast & Hres & Hl & _ & (Hsep & Hne & _) & Hcov).
  rewrite Hhead, Hres. simpl. exists res. split; [done|].
  rewrite Hlast in Hl; [|intros x Hx; apply Hrange in Hx; lia].
  simplify_eq. split; [done|]. split; [done|].
  intros m. rewrite Hcov, covers_nil. tauto.
Qed.

(** Well-formed entries have windows, all within the day. *)
Lemma well_formed_windows schedules :
  Forall well_formed_schedule schedules →
  ∃ wss, mapM windows_of schedules = Some wss ∧
    (∀ ws w, ws ∈ wss → w ∈ ws → 0 ≤ w.1 ≤ 1440 ∧ 0 ≤ w.2 ≤ 1440).
Proof.
  induction 1 as [|s rest (ivs & Hivs & Hwf) Hrest (wss & Hm & Hb)].
  - exists []. split; [done|]. intros ws w Hws. by apply elem_of_nil in Hws.
  - exists (complement 0 ivs :: wss). split.
    + apply mapM_Some. constructor; [|by apply mapM_Some].
      by apply get_electricity_periods_Some.
    + intros ws w [->|Hws]%elem_of_cons Hw; [|eauto].
      assert (Hc : chain 0 ivs).
      { apply well_formed_sorted_chain; [done|]. by eapply get_outage_intervals_sorted. }
      pose proof (complement_bounds 0 ivs Hc (well_formed_upper _ Hwf)) as Hcb.
      pose proof (complement_nonempty 0 ivs) as Hcn.
      unfold all_nonempty in Hcn. rewrite Forall_forall in Hcb, Hcn.
      specialize (Hcb _ Hw). specialize (Hcn _ Hw). simpl in *. lia.
Qed.

(** Once every entry has windows, the engine returns. *)
Lemma find_common_total schedules wss :
  mapM windows_of schedules = Some wss →
  ∃ ps, find_common_electricity_periods schedules = Some (ps, []).
Proof.
  intros Hm. destruct schedules as [|s1 [|s2 rest]].
  - by exists [].
  - apply mapM_Some in Hm. inversion Hm as [|? ws ? ? Hs _]; subst.
    exists ws. unfold windows_of in Hs. simpl. by rewrite Hs.
  - rewrite find_common_many.
    destruct (collect_points_Some _ _ {[0; 24 * 60]} Hm) as (all_points & -> & _).
    simpl.
    destruct (sweep_total (s1 :: s2 :: rest) wss (Py.sorted_set all_points) [] Hm)
      as [res ->].
    by exists res.
Qed.

End intersection.

(** C1. On at least two entries with well-formed outage lists the engine
    returns periods such that a minute of the day lies in a returned period
    exactly when it lies in a window of every user; the periods are sorted
    ascending, pairwise disjoint and maximal. *)
Theorem common_periods_correct (schedules : list Schedule) :
  (2 ≤ length schedules)%nat →
  Forall well_formed_schedule schedules →
  ∃ ps, find_common_electricity_periods schedules = Some (ps, []) ∧
    (∀ m : Z, 0 ≤ m < 1440 →
       (covers ps m ↔
        ∀ s, s ∈ schedules →
          ∃ ws, get_electricity_periods (default [] (outages s)) = Some ws ∧
                covers ws m)) ∧
    sorted_ascending ps ∧ pairwise_disjoint ps ∧ maximal ps.
Proof.
  intros Hlen Hwf.
  destruct (well_formed_windows _ Hwf) as (wss & Hm & Hb).
  destruct (find_common_spec _ _ Hlen Hm Hb) as (ps & Hps & Hsep & Hne & Hcov).
  exists ps. split; [done|].
  pose proof (strictly_separated_separated _ Hsep) as Hsep'.
  split; [|split; [|split]].
  - intros m Hrange. rewrite Hcov.
    rewrite (everyone_iff schedules wss m); [|by apply mapM_Some].
    unfold windows_of. tauto.
  - by apply separated_sorted_ascending.
  - by apply separated_pairwise_disjoint.
  - by apply strictly_separated_maximal.
Qed.

Lemma common_periods_correct_witness :
  (2 ≤ length [user_A; user_B])%nat ∧
  Forall well_formed_schedule [user_A; user_B] ∧
  ∃ ps, find_common_electricity_periods [user_A; user_B] = Some (ps, []) ∧
    (∀ m : Z, 0 ≤ m < 1440 →
       (covers ps m ↔
        ∀ s, s ∈ [user_A; user_B] →
          ∃ ws, get_electricity_periods (default [] (outages s)) = Some ws ∧
                covers ws m)) ∧
    sorted_ascending ps ∧ pairwise_disjoint ps ∧ maximal ps.
Proof.
  assert (Hlen : (2 ≤ length [user_A; user_B])%nat) by (simpl; lia).
  assert (Hwf : Forall well_formed_schedule [user_A; user_B]).
  { repeat constructor.
    - solve_well_formed_schedule [(90, 300); (720, 930); (1350, 1440)].
    - solve_well_formed_schedule [(0, 90); (510, 720); (1140, 1350)]. }
  split; [exact Hlen|]. split; [exact Hwf|].
  exact (common_periods_correct _ Hlen Hwf).
Defined.

(** C6. The two-user scenario of the specification: the engine returns the
    periods (300, 510) and (930, 1140), in that order, whether the whole hours
    are supplied as integers or as floats. *)
Theorem common_periods_scenario :
  find_common_electricity_periods [user_A; user_B]
  = Some ([(300, 510); (930, 1140)], []) ∧
  find_common_electricity_periods [user_A_float; user_B_float]
  = Some ([(300, 510); (930, 1140)], []).
Proof. split; vm_compute; reflexivity. Qed.

(** C9. The second component of the result is always the empty list: the
    engine either returns a pair whose second component is empty, or fails
    because an hour of some entry does not convert to minutes. *)
Theorem common_periods_second_empty (schedules : list Schedule) :
  (∃ ps, find_common_electricity_periods schedules = Some (ps, [])) ∨
  (find_common_electricity_periods schedules = None ∧
   ∃ s, s ∈ schedules ∧ get_outage_intervals (default [] (outages s)) = None).
Proof.
  destruct (mapM windows_of schedules) as [wss|] eqn:Hm.
  - left. by eapply find_common_total.
  - right. apply mapM_None in Hm.
    split.
    + destruct schedules as [|s1 [|s2 rest]].
      * by apply Exists_nil in Hm.
      * apply Exists_cons in Hm as [Hs|Hm]; [|by apply Exists_nil in Hm].
        unfold windows_of in Hs. simpl. by rewrite Hs.
      * rewrite find_common_many. by rewrite collect_points_None.
    + apply Exists_exists in Hm as (s & Hin & Hs).
      exists s. split; [done|]. by apply windows_of_None.
Qed.

(** ** Properties of the Exclusion Analyzer *)

Section exclusion.

Lemma elem_of_enumerate {A} (l : list A) idx x :
  (idx, x) ∈ enumerate l → l !! idx = Some x.
Proof.
  unfold enumerate. intros (i & y & Heq & Hl)%elem_of_lookup_imap. by simplify_eq.
Qed.

Lemma elem_of_overlap_record e c o r :
  r ∈ overlap_record e c o →
  missing_user_id r = user_id e ∧ missing_username r = username e ∧
  record_consistent r ∧
  o.1 ≤ start r ∧ end_ r ≤ o.2 ∧ c.1 ≤ start r ∧ end_ r ≤ c.2.
Proof.
  unfold overlap_record, record_consistent. case_decide as Hlt.
  - intros ->%list_elem_of_singleton. simpl. repeat split; auto; lia.
  - intros Hin. by apply elem_of_nil in Hin.
Qed.

Lemma elem_of_overlap_records e commons outs r :
  r ∈ overlap_records e commons outs →
  ∃ c o, c ∈ commons ∧ o ∈ outs ∧ r ∈ overlap_record e c o.
Proof.
  unfold overlap_records.
  intros (c & (o & Hr & Ho)%list_elem_of_bind & Hc)%list_elem_of_bind. eauto.
Qed.

(** Whatever holds of every record built from one pair holds of the result. *)
Lemma exclusion_loop_Forall (P : ExclusionPeriod → Prop) schedules todo results res :
  (∀ e c o r, r ∈ overlap_record e c o → P r) →
  exclusion_loop schedules todo results = Some res →
  Forall P results → Forall P res.
Proof.
  intros HP. revert results. induction todo as [|[idx e] todo IH]; intros results; simpl.
  - intros ?; by simplify_eq.
  - destruct (get_outage_intervals (default [] (outages e))) as [outs|]; simpl; [|done].
    destruct (find_common_electricity_periods _) as [[commons other]|]; simpl; [|done].
    intros Hl Hres. apply (IH _ Hl). apply Forall_app. split; [done|].
    apply Forall_forall. intros r (c & o & _ & _ & Hr)%elem_of_overlap_records. eauto.
Qed.

Lemma exclusion_loop_spec schedules todo results :
  Forall (is_Some ∘ windows_of) schedules →
  (∀ idx e, (idx, e) ∈ todo → schedules !! idx = Some e) →
  Forall (exclusion_ok schedules) results →
  ∃ res, exclusion_loop schedules todo results = Some res ∧
    Forall (exclusion_ok schedules) res.
Proof.
  intros Hall. revert results.
  induction todo as [|[idx e] todo IH]; intros results Htodo Hres; simpl.
  - by exists results.
  - assert (Hidx : schedules !! idx = Some e) by (apply Htodo; left).
    assert (He : is_Some (windows_of e)).
    { rewrite Forall_forall in Hall. apply Hall. apply list_elem_of_lookup. eauto. }
    destruct He as [ws (outs & Houts & _)%get_electricity_periods_inv].
    rewrite Houts. simpl.
    assert (Hothers : is_Some (mapM windows_of (take idx schedules ++ drop (S idx) schedules))).
    { apply mapM_is_Some, Forall_app. split; [by apply Forall_take|by apply Forall_drop]. }
    destruct Hothers as [wss Hwss].
    destruct (find_common_total _ _ Hwss) as [commons Hcommons].
    rewrite Hcommons. simpl.
    apply IH.
    + intros idx' e' Hin. apply Htodo. by right.
    + apply Forall_app. split; [done|].
      apply Forall_forall. intros r (c & o & Hc & Ho & Hr)%elem_of_overlap_records.
      apply elem_of_overlap_record in Hr
        as (Hid & Hname & (_ & Hlt & _ & _) & Ho1 & Ho2 & Hc1 & Hc2).
      exists idx, e, outs, commons, o, c. repeat split; auto.
Qed.

End exclusion.

(** C4. On at least two well-formed entries the analyzer returns, and every
    record it emits names an entry [e] of the input and is a non-empty interval
    contained in one outage interval of [e] and in one period of the engine's
    result over the other entries; on fewer than two entries the result is
    empty. *)
Theorem exclusion_periods_consistent (schedules : list Schedule) :
  ((length schedules < 2)%nat → find_n_minus_one_periods schedules = Some []) ∧
  ((2 ≤ length schedules)%nat →
   Forall well_formed_schedule schedules →
   ∃ results, find_n_minus_one_periods schedules = Some results ∧
     ∀ r, r ∈ results → exclusion_ok schedules r).
Proof.
  unfold find_n_minus_one_periods. split.
  - intros Hlen. by case_decide.
  - intros Hlen Hwf. case_decide; [lia|].
    destruct (exclusion_loop_spec schedules (enumerate schedules) []) as (res & Hres & Hok).
    + eapply Forall_impl; [exact Hwf|]. intros s (ivs & Hivs & _). simpl.
      unfold windows_of. rewrite (get_electricity_periods_Some _ _ Hivs). eauto.
    + intros idx e. apply elem_of_enumerate.
    + constructor.
    + exists res. split; [done|]. by apply Forall_forall.
Qed.

Lemma exclusion_periods_consistent_witness :
  (2 ≤ length [user_A; user_B])%nat ∧
  Forall well_formed_schedule [user_A; user_B] ∧
  ∃ results, find_n_minus_one_periods [user_A; user_B] = Some results ∧
    ∀ r, r ∈ results → exclusion_ok [user_A; user_B] r.
Proof.
  assert (Hlen : (2 ≤ length [user_A; user_B])%nat) by (simpl; lia).
  assert (Hwf : Forall well_formed_schedule [user_A; user_B]).
  { repeat constructor.
    - solve_well_formed_schedule [(90, 300); (720, 930); (1350, 1440)].
    - solve_well_formed_schedule [(0, 90); (510, 720); (1140, 1350)]. }
  split; [exact Hlen|]. split; [exact Hwf|].
  exact (proj2 (exclusion_periods_consistent [user_A; user_B]) Hlen Hwf).
Defined.

(** C10. Every record the analyzer emits is consistent: the duration is the
    end minus the start, the start is strictly before the end, and the two
    clock strings are [minutes_to_hhmm] of the start and of the end. *)
Theorem exclusion_records_consistent (schedules : list Schedule)
    (results : list ExclusionPeriod) :
  find_n_minus_one_periods schedules = Some results →
  ∀ r, r ∈ results → record_consistent r.
Proof.
  unfold find_n_minus_one_periods. case_decide.
  - intros ? r Hr. simplify_eq. by apply elem_of_nil in Hr.
  - intros Hl. apply Forall_forall.
    apply (exclusion_loop_Forall _ _ _ _ _ (λ e c o r Hr,
             proj1 (proj2 (proj2 (elem_of_overlap_record e c o r Hr)))) Hl).
    constructor.
Qed.

Lemma exclusion_records_consistent_witness :
  ∃ results, find_n_minus_one_periods [user_A; user_B] = Some results ∧
    ∀ r, r ∈ results → record_consistent r.
Proof.
  eexists. split; [vm_compute; reflexivity|].
  apply (exclusion_records_consistent [user_A; user_B]).
  vm_compute. reflexivity.
Defined.

(** ** Binary64 arithmetic of the hour conversion *)

Section floats.

Lemma digits2_pos_bounds p :
  2 ^ (Z.pos (digits2_pos p) - 1) ≤ Z.pos p < 2 ^ Z.pos (digits2_pos p).
Proof.
  induction p as [p IH|p IH|]; simpl digits2_pos.
  - rewrite Pos2Z.inj_succ.
    replace (Z.succ (Z.pos (digits2_pos p)) - 1) with (Z.succ (Z.pos (digits2_pos p) - 1)) by lia.
    rewrite !Z.pow_succ_r by lia. lia.
  - rewrite Pos2Z.inj_succ.
    replace (Z.succ (Z.pos (digits2_pos p)) - 1) with (Z.succ (Z.pos (digits2_pos p) - 1)) by lia.
    rewrite !Z.pow_succ_r by lia. lia.
  - simpl. lia.
Qed.

Lemma Zdigits2_nonneg a : 0 ≤ Zdigits2 a.
Proof. destruct a; simpl; lia. Qed.

Lemma Zdigits2_lt_pow a : 0 ≤ a → a < 2 ^ Zdigits2 a.
Proof.
  destruct a as [|p|p]; simpl; [lia| |lia]. intros _. apply digits2_pos_bounds.
Qed.

(** A number below [2 ^ n] has at most [n] binary digits. *)
Lemma Zdigits2_le a n : 0 ≤ a → 0 ≤ n → a < 2 ^ n → Zdigits2 a ≤ n.
Proof.
  destruct a as [|p|p]; simpl; [lia| |lia]. intros _ Hn Hlt.
  pose proof (digits2_pos_bounds p) as [Hlo _].
  assert (Z.pos (digits2_pos p) - 1 < n); [|lia].
  apply (Z.pow_lt_mono_r_iff 2); lia.
Qed.

Lemma shr_1_m mrs : 0 ≤ shr_m mrs → shr_m (shr_1 mrs) = shr_m mrs `div` 2.
Proof.
  destruct mrs as [m r s]. cbn [shr_m].
  destruct m as [|[p|p|]|p]; intros Hm; cbn [shr_1 shr_m].
  - done.
  - apply (Z.div_unique _ _ _ 1); lia.
  - apply (Z.div_unique _ _ _ 0); lia.
  - done.
  - lia.
Qed.

Lemma iter_pos_shr_1_m k mrs :
  0 ≤ shr_m mrs → shr_m (SpecFloat.iter_pos shr_1 k mrs) = shr_m mrs `div` 2 ^ Z.pos k.
Proof.
  revert mrs. induction k as [k IH|k IH|]; intros mrs Hm; cbn [SpecFloat.iter_pos].
  - assert (H1 : 0 ≤ shr_m (shr_1 mrs)).
    { rewrite shr_1_m by done. apply Z.div_pos; lia. }
    assert (H2 : 0 ≤ shr_m (SpecFloat.iter_pos shr_1 k (shr_1 mrs))).
    { rewrite IH by done. apply Z.div_pos; lia. }
    rewrite IH, IH, shr_1_m by done.
    rewrite !Z.div_div by lia. f_equal.
    replace (Z.pos k~1) with (1 + Z.pos k + Z.pos k) by lia.
    rewrite !Z.pow_add_r by lia. lia.
  - assert (H2 : 0 ≤ shr_m (SpecFloat.iter_pos shr_1 k mrs)).
    { rewrite IH by done. apply Z.div_pos; lia. }
    rewrite IH, IH by done.
    rewrite !Z.div_div by lia. f_equal.
    replace (Z.pos k~0) with (Z.pos k + Z.pos k) by lia.
    rewrite !Z.pow_add_r by lia. lia.
  - by rewrite shr_1_m.
Qed.

Lemma shr_record_of_loc_m m l : shr_m (shr_record_of_loc m l) = m.
Proof. by destruct l as [|[]]. Qed.

(** Shifting to the format's exponent keeps the magnitude bound. *)
Lemma shr_fexp_bound m e l K :
  0 ≤ m → Zdigits2 m + e ≤ K → -1074 ≤ K →
  0 ≤ shr_m (shr_fexp Py.prec Py.emax m e l).1 ∧
  Zdigits2 (shr_m (shr_fexp Py.prec Py.emax m e l).1)
    + (shr_fexp Py.prec Py.emax m e l).2 ≤ K ∧
  (shr_fexp Py.prec Py.emax m e l).2 ≤ K.
Proof.
  intros Hm HK HK'. unfold shr_fexp, shr, fexp, emin, Py.prec, Py.emax.
  pose proof (Zdigits2_nonneg m) as Hd.
  destruct (Z.max (Zdigits2 m + e - 53) (3 - 1024 - 53) - e) as [|p|p] eqn:Hn;
    simpl; rewrite ?shr_record_of_loc_m; try (split; [done|lia]).
  rewrite iter_pos_shr_1_m by (by rewrite shr_record_of_loc_m).
  rewrite shr_record_of_loc_m.
  assert (H2p : 0 < 2 ^ Z.pos p) by (apply Z.pow_pos_nonneg; lia).
  split; [apply Z.div_pos; lia|]. split; [|lia].
  destruct (decide (Zdigits2 m ≤ Z.pos p)) as [Hle|Hgt].
  - rewrite Z.div_small; [simpl; lia|].
    split; [done|]. eapply Z.lt_le_trans; [by apply Zdigits2_lt_pow|].
    apply Z.pow_le_mono_r; lia.
  - assert (Zdigits2 (m `div` 2 ^ Z.pos p) ≤ Zdigits2 m - Z.pos p); [|lia].
    apply Zdigits2_le; [apply Z.div_pos; lia|lia|].
    apply Z.div_lt_upper_bound; [lia|].
    rewrite <- Z.pow_add_r by lia.
    replace (Z.pos p + (Zdigits2 m - Z.pos p)) with (Zdigits2 m) by lia.
    by apply Zdigits2_lt_pow.
Qed.

Lemma round_nearest_even_bound m l :
  0 ≤ m → 0 ≤ round_nearest_even m l ∧ Zdigits2 (round_nearest_even m l) ≤ Zdigits2 m + 1.
Proof.
  intros Hm. pose proof (Zdigits2_nonneg m) as Hd.
  pose proof (Zdigits2_lt_pow m Hm) as Hlt.
  assert (Hs : Zdigits2 (m + 1) ≤ Zdigits2 m + 1).
  { apply Zdigits2_le; [lia..|]. rewrite Z.pow_add_r by lia. lia. }
  unfold round_nearest_even. destruct l as [|[]]; try destruct (Z.even m); split; lia.
Qed.

(** Rounding a non-negative number below [2 ^ K] neither overflows nor
    changes its sign, and the result is below [2 ^ (K + 1)]. *)
Lemma binary_round_aux_bounded mx ex lx K :
  0 ≤ mx → Zdigits2 mx + ex ≤ K → -1074 ≤ K → K ≤ 970 →
  nonneg_below (K + 1) (binary_round_aux Py.prec Py.emax false mx ex lx).
Proof.
  intros Hm HK Hlo Hhi. unfold binary_round_aux.
  pose proof (shr_fexp_bound mx ex lx K Hm HK Hlo) as (H1 & H2 & H3).
  destruct (shr_fexp Py.prec Py.emax mx ex lx) as [mrs' e']. simpl in H1, H2, H3.
  pose proof (round_nearest_even_bound (shr_m mrs') (loc_of_shr_record mrs') H1)
    as [H4 H5].
  set (mx1 := round_nearest_even (shr_m mrs') (loc_of_shr_record mrs')) in *.
  pose proof (shr_fexp_bound mx1 e' loc_Exact (K + 1) H4 ltac:(lia) ltac:(lia))
    as (H6 & H7 & H8).
  destruct (shr_fexp Py.prec Py.emax mx1 e' loc_Exact) as [mrs'' e''].
  simpl in H6, H7, H8.
  destruct (shr_m mrs'') as [|m|m]; [done| |lia].
  unfold Py.emax, Py.prec. destruct (Z.leb_spec e'' (1024 - 53)); [|lia].
  split; [done|exact H7].
Qed.

Lemma iter_xO m d : Z.pos (Pos.iter xO m d) = Z.pos m * 2 ^ Z.pos d.
Proof.
  induction d as [|d IH] using Pos.peano_ind.
  - simpl. lia.
  - rewrite Pos.iter_succ, Pos2Z.inj_succ, Z.pow_succ_r by lia.
    change (Z.pos (Pos.iter xO m d)~0) with (2 * Z.pos (Pos.iter xO m d)). lia.
Qed.

(** Aligning to a smaller exponent multiplies the mantissa by a power of 2. *)
Lemma shl_align_value m e e' :
  e' ≤ e →
  Z.pos (shl_align m e e').1 = Z.pos m * 2 ^ (e - e') ∧ (shl_align m e e').2 = e'.
Proof.
  intros Hle. unfold shl_align. destruct (e' - e) as [|d|d] eqn:Hd; simpl.
  - replace (e - e') with 0 by lia. simpl. lia.
  - lia.
  - rewrite iter_xO. replace (e - e') with (Z.pos d) by lia. done.
Qed.

Lemma Zdigits2_mono a b : 0 ≤ a → a ≤ b → Zdigits2 a ≤ Zdigits2 b.
Proof.
  intros Ha Hab. apply Zdigits2_le; [done|apply Zdigits2_nonneg|].
  eapply Z.le_lt_trans; [exact Hab|]. apply Zdigits2_lt_pow. lia.
Qed.

Lemma Zdigits2_mul_pow a k : 0 ≤ a → 0 ≤ k → Zdigits2 (a * 2 ^ k) ≤ Zdigits2 a + k.
Proof.
  intros Ha Hk. pose proof (Zdigits2_nonneg a). pose proof (Zdigits2_lt_pow a Ha).
  assert (0 < 2 ^ k) by (apply Z.pow_pos_nonneg; lia).
  apply Zdigits2_le; [nia|lia|]. rewrite Z.pow_add_r by lia. nia.
Qed.

Lemma Zdigits2_mul a b : 0 ≤ a → 0 ≤ b → Zdigits2 (a * b) ≤ Zdigits2 a + Zdigits2 b.
Proof.
  intros Ha Hb. pose proof (Zdigits2_nonneg a). pose proof (Zdigits2_nonneg b).
  pose proof (Zdigits2_lt_pow a Ha). pose proof (Zdigits2_lt_pow b Hb).
  apply Zdigits2_le; [nia|lia|]. rewrite Z.pow_add_r by lia. nia.
Qed.

Lemma shl_align_bound m e e' K :
  Zdigits2 (Z.pos m) + e ≤ K →
  Zdigits2 (Z.pos (shl_align m e e').1) + (shl_align m e e').2 ≤ K.
Proof.
  intros HK. destruct (decide (e' ≤ e)) as [Hle|Hgt].
  - destruct (shl_align_value m e e' Hle) as [-> ->].
    pose proof (Zdigits2_mul_pow (Z.pos m) (e - e') ltac:(lia) ltac:(lia)). lia.
  - unfold shl_align. destruct (e' - e) eqn:Hd; simpl in *; lia.
Qed.

Lemma binary_round_bounded m e K :
  Zdigits2 (Z.pos m) + e ≤ K → -1074 ≤ K → K ≤ 970 →
  nonneg_below (K + 1) (binary_round Py.prec Py.emax false m e).
Proof.
  intros HK Hlo Hhi. unfold binary_round.
  pose proof (shl_align_bound m e
    (fexp Py.prec Py.emax (Z.pos (digits2_pos m) + e)) K HK) as Hb.
  destruct (shl_align m e _) as [mz ez]. simpl in Hb.
  apply binary_round_aux_bounded; auto. lia.
Qed.

(** [x - float(int(x))] for a positive [x = m * 2 ^ e] with integer part [n],
    whose float is [my * 2 ^ ey]: a zero or a positive float, no larger than
    [x]. *)
Lemma fsub_int_part_bounded m e my ey n K :
  Z.shiftl (Z.pos m) e = n →
  ey ≤ 0 → Z.pos my = n * 2 ^ (- ey) →
  Zdigits2 (Z.pos m) + e ≤ K → -1074 ≤ K → K ≤ 970 →
  nonneg_below (K + 1)
    (Py.fsub (S754_finite false m e) (S754_finite false my ey)).
Proof.
  intros Hn Hey Hmy HK Hlo Hhi. unfold Py.fsub, SFsub, cond_Zopp.
  set (ez := Z.min e ey).
  destruct (shl_align_value m e ez ltac:(lia)) as [Ha _].
  destruct (shl_align_value my ey ez ltac:(lia)) as [Hb _].
  pose proof (shl_align_bound m e ez K HK) as Hab.
  rewrite (proj2 (shl_align_value m e ez ltac:(lia))) in Hab.
  set (a := Z.pos (shl_align m e ez).1) in *.
  set (b := Z.pos (shl_align my ey ez).1) in *.
  assert (Hba : b ≤ a).
  { rewrite Ha, Hb, Hmy. rewrite <- Z.mul_assoc, <- Z.pow_add_r by lia.
    replace (- ey + (ey - ez)) with (- ez) by lia.
    destruct (decide (0 ≤ e)) as [He|He].
    - rewrite Z.shiftl_mul_pow2 in Hn by done. subst n.
      rewrite <- Z.mul_assoc, <- Z.pow_add_r by lia.
      replace (e + - ez) with (e - ez) by lia. lia.
    - rewrite Z.shiftl_div_pow2 in Hn by lia.
      replace (- ez) with (- e + (e - ez)) by lia.
      rewrite Z.pow_add_r, Z.mul_assoc by lia.
      apply Z.mul_le_mono_nonneg_r; [apply Z.pow_nonneg; lia|].
      subst n. rewrite Z.mul_comm. apply Z.mul_div_le.
      apply Z.pow_pos_nonneg; lia. }
  unfold binary_normalize.
  destruct (a - b) as [|d|d] eqn:Hd; [done| |lia].
  apply binary_round_bounded; auto.
  assert (Zdigits2 (Z.pos d) ≤ Zdigits2 a) by (apply Zdigits2_mono; lia).
  lia.
Qed.

Lemma fmul_bounded x m e K :
  nonneg_below K x → Zdigits2 (Z.pos m) + e ≤ 6 → -1080 ≤ K → K ≤ 964 →
  nonneg_below (K + 7) (Py.fmul x (S754_finite false m e)).
Proof.
  intros Hx Hm Hlo Hhi. destruct x as [s|s| |s mx ex]; simpl in Hx; try done.
  destruct Hx as [-> Hx]. unfold Py.fmul, SFmul. simpl xorb.
  replace (K + 7) with (K + 6 + 1) by lia.
  apply binary_round_aux_bounded; try lia.
  pose proof (Zdigits2_mul (Z.pos mx) (Z.pos m) ltac:(lia) ltac:(lia)) as Hmul.
  simpl in *. lia.
Qed.

Lemma int_of_float_floor x K :
  nonneg_below K x → Py.int_of_float x = Some (Py.floor x).
Proof. destruct x as [s|s| |s m e]; simpl; try done. by intros [-> _]. Qed.

Lemma float_of_int_60 : Py.float_of_int 60 = Some sixty.
Proof. vm_compute. reflexivity. Qed.

Lemma float_of_int_0 : Py.float_of_int 0 = Some (S754_zero false).
Proof. vm_compute. reflexivity. Qed.

(** The integers from 1 to 24 are exactly representable. *)
Lemma float_of_small_int n :
  1 ≤ n ≤ 24 →
  ∃ my ey, Py.float_of_int n = Some (S754_finite false my ey) ∧
    ey ≤ 0 ∧ Z.pos my = n * 2 ^ (- ey).
Proof.
  intros Hn.
  assert (Hall : forallb exact_int_float (List.map Z.of_nat (seq 1 24)) = true)
    by (vm_compute; reflexivity).
  rewrite forallb_forall in Hall.
  assert (Hin : In n (List.map Z.of_nat (seq 1 24))).
  { apply in_map_iff. exists (Z.to_nat n). split; [lia|apply in_seq; lia]. }
  specialize (Hall n Hin). unfold exact_int_float in Hall.
  destruct (Py.float_of_int n) as [[s|s| |[] my ey]|]; try discriminate Hall.
  exists my, ey. split; [done|]. by apply bool_decide_eq_true_1 in Hall.
Qed.

(** A positive float with ceiling at most 24 has integer part at most 24 and
    is below [2 ^ 5]. *)
Lemma ceil_bound m e :
  - Z.shiftl (Z.neg m) e ≤ 24 →
  Z.shiftl (Z.pos m) e ≤ 24 ∧ Zdigits2 (Z.pos m) + e ≤ 5.
Proof.
  intros Hc. destruct (decide (0 ≤ e)) as [He|He].
  - rewrite Z.shiftl_mul_pow2 in Hc |- * by done.
    assert (0 < 2 ^ e) by (apply Z.pow_pos_nonneg; lia).
    assert (Hle : Z.pos m * 2 ^ e ≤ 24) by lia.
    split; [done|].
    assert (e ≤ 4).
    { destruct (decide (e ≤ 4)); [done|].
      assert (2 ^ 5 ≤ 2 ^ e) by (apply Z.pow_le_mono_r; lia).
      change (2 ^ 5) with 32 in *. nia. }
    assert (Zdigits2 (Z.pos m) ≤ 5 - e); [|lia].
    apply Zdigits2_le; [lia..|].
    assert (2 ^ e * 2 ^ (5 - e) = 32).
    { rewrite <- Z.pow_add_r by lia. by replace (e + (5 - e)) with 5 by lia. }
    nia.
  - rewrite Z.shiftl_div_pow2 in Hc |- * by lia.
    assert (Hp : 0 < 2 ^ (- e)) by (apply Z.pow_pos_nonneg; lia).
    assert (Hm : Z.pos m ≤ 24 * 2 ^ (- e)).
    { pose proof (Z.mul_div_le (Z.neg m) (2 ^ (- e)) Hp). nia. }
    split.
    + apply Z.div_le_upper_bound; lia.
    + assert (Zdigits2 (Z.pos m) ≤ 5 - e); [|lia].
      apply Zdigits2_le; [lia..|].
      replace (5 - e) with (5 + - e) by lia. rewrite Z.pow_add_r by lia.
      change (2 ^ 5) with 32. lia.
Qed.

Lemma sixty_bound : Zdigits2 (Z.pos 8444249301319680) + -47 ≤ 6.
Proof. vm_compute. discriminate. Qed.

(** The minutes of a fraction: the product with [60.0] is truncated without
    an error, and truncation is the floor. *)
Lemma minutes_of_fraction frac K :
  nonneg_below K frac → -1080 ≤ K → K ≤ 964 →
  Py.int_of_float (Py.fmul frac sixty) = Some (Py.floor (Py.fmul frac sixty)).
Proof.
  intros Hf Hlo Hhi. apply (int_of_float_floor _ (K + 7)).
  apply fmul_bounded; auto. apply sixty_bound.
Qed.

(** The conversion of a float of the day. *)
Lemma convert_float_in_range x :
  Py.finite x → 0 ≤ Py.floor x → Py.ceil x ≤ 24 →
  ∃ fhours,
    Py.float_of_int (Py.floor x) = Some fhours ∧
    convert_hour_to_minutes (Py.Float x)
    = Some (Py.floor x * 60 + Py.floor (Py.fmul (Py.fsub x fhours) sixty)).
Proof.
  intros Hfin Hlo Hhi. unfold convert_hour_to_minutes.
  destruct x as [s|s| |s m e]; try done.
  - exists (S754_zero false). split; [apply float_of_int_0|].
    cbn [Py.int_of_float Py.floor mbind option_bind].
    rewrite float_of_int_0. cbn [mbind option_bind].
    rewrite float_of_int_60. by destruct s.
  - destruct s.
    { exfalso. cbn [Py.floor cond_Zopp] in Hlo.
      apply Z.shiftl_nonneg in Hlo. lia. }
    cbn [Py.floor Py.ceil cond_Zopp negb Py.int_of_float] in *.
    change (- Z.pos m) with (Z.neg m) in Hhi.
    destruct (ceil_bound m e Hhi) as [Hn HK].
    set (n := Z.shiftl (Z.pos m) e) in *.
    assert (Hfrac : ∃ fhours, Py.float_of_int n = Some fhours ∧
              nonneg_below 6 (Py.fsub (S754_finite false m e) fhours)).
    { destruct (decide (n = 0)) as [Hz|Hnz].
      - exists (S754_zero false). rewrite Hz. split; [apply float_of_int_0|].
        simpl. split; [done|]. simpl in HK. lia.
      - destruct (float_of_small_int n ltac:(lia)) as (my & ey & Hf & Hey & Hmy).
        exists (S754_finite false my ey). split; [done|].
        apply (fsub_int_part_bounded m e my ey n 5); auto; lia. }
    destruct Hfrac as (fhours & Hfh & Hb).
    exists fhours. split; [done|].
    cbn [mbind option_bind]. rewrite Hfh. cbn [mbind option_bind].
    rewrite float_of_int_60. cbn [mbind option_bind].
    rewrite (minutes_of_fraction _ 6 Hb) by lia. done.
Qed.

End floats.

(** The product is rounded to a float before it is truncated: at the float
    nearest to 1/60 it is exactly [1.0], and the conversion gives one minute. *)
Example convert_one_sixtieth :
  Py.fmul (Py.ratio 1 60) sixty = Py.ratio 1 1 ∧
  convert_hour_to_minutes (Py.Float (Py.ratio 1 60)) = Some 1.
Proof. split; vm_compute; reflexivity. Qed.

(** 1.999 and 24.0 as binary64 numbers. *)
Example ratio_1999_1000 :
  Py.ratio 1999 1000 = S754_finite false 9002695655113622 (-52).
Proof. vm_compute. reflexivity. Qed.

Example ratio_24_1 : Py.ratio 24 1 = S754_finite false 6755399441055744 (-48).
Proof. vm_compute. reflexivity. Qed.

(** C5. The conversion truncates the hour part and the minute part
    independently. For every finite float [x] of [0, 24] it returns, without an
    error, [floor x * 60 + floor ((x - floor x) * 60)], the subtraction and the
    product being those of binary64 floats; for an integer [n] it returns
    [n * 60 + (n - n) * 60]. In particular 1.999 gives 119, 0 gives 0 and 24
    gives 1440. *)
Theorem hour_conversion_truncates :
  (∀ n : Z, convert_hour_to_minutes (Py.Int n) = Some (n * 60 + (n - n) * 60)) ∧
  (∀ x : spec_float,
     Py.finite x → 0 ≤ Py.floor x → Py.ceil x ≤ 24 →
     ∃ fhours,
       Py.float_of_int (Py.floor x) = Some fhours ∧
       Py.float_of_int 60 = Some sixty ∧
       convert_hour_to_minutes (Py.Float x)
       = Some (Py.floor x * 60 + Py.floor (Py.fmul (Py.fsub x fhours) sixty))) ∧
  convert_hour_to_minutes (Py.Float (Py.ratio 1999 1000)) = Some 119 ∧
  convert_hour_to_minutes (Py.Float (S754_zero false)) = Some 0 ∧
  convert_hour_to_minutes (Py.Int 0) = Some 0 ∧
  convert_hour_to_minutes (Py.Float (Py.ratio 24 1)) = Some 1440 ∧
  convert_hour_to_minutes (Py.Int 24) = Some 1440.
Proof.
  split; [done|]. split.
  - intros x Hfin Hlo Hhi.
    destruct (convert_float_in_range x Hfin Hlo Hhi) as (fhours & Hfh & Hc).
    exists fhours. split; [done|]. split; [apply float_of_int_60|done].
  - repeat split; vm_compute; reflexivity.
Qed.

Lemma hour_conversion_truncates_witness :
  Py.finite (Py.ratio 1999 1000) ∧
  0 ≤ Py.floor (Py.ratio 1999 1000) ∧
  Py.ceil (Py.ratio 1999 1000) ≤ 24 ∧
  ∃ fhours,
    Py.float_of_int (Py.floor (Py.ratio 1999 1000)) = Some fhours ∧
    Py.float_of_int 60 = Some sixty ∧
    convert_hour_to_minutes (Py.Float (Py.ratio 1999 1000))
    = Some (Py.floor (Py.ratio 1999 1000) * 60
            + Py.floor (Py.fmul (Py.fsub (Py.ratio 1999 1000) fhours) sixty)).
Proof.
  assert (Hfin : Py.finite (Py.ratio 1999 1000)) by (vm_compute; exact I).
  assert (Hlo : 0 ≤ Py.floor (Py.ratio 1999 1000)) by (vm_compute; discriminate).
  assert (Hhi : Py.ceil (Py.ratio 1999 1000) ≤ 24) by (vm_compute; discriminate).
  split; [exact Hfin|]. split; [exact Hlo|]. split; [exact Hhi|].
  exact (proj1 (proj2 hour_conversion_truncates) _ Hfin Hlo Hhi).
Defined.

(** ** The engine on fewer than two entries *)

Lemma day_hour_converts hour :
  day_hour hour → is_Some (convert_hour_to_minutes hour).
Proof.
  destruct hour as [n|x]; [by eexists|].
  intros (Hfin & Hlo & Hhi).
  destruct (convert_float_in_range x Hfin Hlo Hhi) as (fhours & _ & Hc).
  by eexists.
Qed.

Lemma day_outages_convert outages :
  Forall day_outage outages → is_Some (get_outage_intervals outages).
Proof.
  intros Hday. unfold get_outage_intervals.
  assert (Hm : is_Some (mapM outage_interval outages)).
  { apply mapM_is_Some. eapply Forall_impl; [exact Hday|].
    intros outage [Hs He]. unfold compose, outage_interval.
    destruct (day_hour_converts _ Hs) as [start_ ->].
    destruct (day_hour_converts _ He) as [end_' ->].
    by eexists. }
  destruct Hm as [intervals ->]. by eexists.
Qed.

(** C3. On no entry the engine returns an empty result. On one entry it
    returns that user's availability windows exactly as
    [get_electricity_periods] computes them, with an empty second component,
    and it can fail only where that function fails. It does not fail, so no
    error is raised, whenever the hours of the entry's outages are integers or
    finite floats of [0, 24]; the outages may be unsorted, overlapping or
    backwards. *)
Theorem common_periods_degenerate :
  find_common_electricity_periods [] = Some ([], []) ∧
  (∀ s : Schedule,
     find_common_electricity_periods [s] =
     (λ ps, (ps, [])) <$> get_electricity_periods (default [] (outages s))) ∧
  (∀ s : Schedule,
     Forall day_outage (default [] (outages s)) →
     ∃ ws, get_electricity_periods (default [] (outages s)) = Some ws ∧
           find_common_electricity_periods [s] = Some (ws, [])).
Proof.
  split; [done|]. split.
  - intros s. simpl.
    by destruct (get_electricity_periods (default [] (outages s))).
  - intros s Hday.
    destruct (day_outages_convert _ Hday) as [ivs Hivs].
    exists (complement 0 ivs).
    pose proof (get_electricity_periods_Some _ _ Hivs) as Hws.
    split; [exact Hws|].
    cbn [find_common_electricity_periods]. rewrite Hws. done.
Qed.

Lemma common_periods_degenerate_witness :
  Forall day_outage (default [] (outages backwards_user)) ∧
  ∃ ws, get_electricity_periods (default [] (outages backwards_user)) = Some ws ∧
        find_common_electricity_periods [backwards_user] = Some (ws, []).
Proof.
  assert (Hday : Forall day_outage (default [] (outages backwards_user))).
  { repeat constructor; vm_compute; discriminate. }
  split; [exact Hday|].
  exact (proj2 (proj2 common_periods_degenerate) backwards_user Hday).
Defined.


(** ** Further properties of the Intersection Engine *)

Section engine_more.

Lemma chain_lower lo ivs :
  chain lo ivs → Forall (λ iv : interval, lo ≤ iv.1 ∧ lo ≤ iv.2) ivs.
Proof.
  revert lo. induction ivs as [|iv rest IH]; intros lo Hc; [constructor|].
  destruct Hc as (H1 & H2 & Hc). constructor; [simpl; lia|].
  eapply Forall_impl; [apply IH, Hc|]. simpl. intros. lia.
Qed.

(** Along a chain of non-empty outages an outage lies between two windows. *)
Lemma complement_strictly_separated lo ivs :
  chain lo ivs → strictly_separated (complement lo ivs).
Proof.
  unfold strictly_separated. revert lo.
  induction ivs as [|iv rest IH]; intros lo Hc; simpl.
  - case_decide; repeat constructor.
  - destruct Hc as (H1 & H2 & Hc).
    case_decide; simpl; [|by apply IH].
    constructor; [by apply IH|].
    pose proof (complement_lower iv.2 iv.2 rest ltac:(lia)) as Hl.
    eapply Forall_impl; [apply Hl|simpl; intros; lia].
    eapply Forall_impl; [apply chain_lower, Hc|]. simpl. intros. lia.
Qed.

(** Two lists of non-empty, strictly separated periods that cover the same
    minutes are the same list. *)
Lemma canonical_unique ps qs :
  strictly_separated ps → all_nonempty ps →
  strictly_separated qs → all_nonempty qs →
  (∀ m, covers ps m ↔ covers qs m) →
  ps = qs.
Proof.
  unfold strictly_separated, all_nonempty.
  intros Hps. revert qs. induction Hps as [|p ps Hps IH Hp]; intros qs Hnp Hqs Hnq Hcov.
  - destruct qs as [|q qs]; [done|]. exfalso.
    apply Forall_cons in Hnq as [Hq _].
    apply (covers_nil q.1), Hcov, covers_cons. left. unfold contains. lia.
  - destruct Hqs as [|q qs Hqs Hq].
    { exfalso. apply Forall_cons in Hnp as [Hp1 _].
      apply (covers_nil p.1), Hcov, covers_cons. left. unfold contains. lia. }
    apply Forall_cons in Hnp as [Hp1 Hnp]. apply Forall_cons in Hnq as [Hq1 Hnq].
    rewrite Forall_forall in Hp, Hq.
    assert (Hlater_p : ∀ m, covers ps m → p.2 < m).
    { intros m (p' & Hin & Hc). specialize (Hp _ Hin). unfold contains in Hc. lia. }
    assert (Hlater_q : ∀ m, covers qs m → q.2 < m).
    { intros m (q' & Hin & Hc). specialize (Hq _ Hin). unfold contains in Hc. lia. }
    assert (Hin_p : ∀ m, contains p m → contains q m ∨ covers qs m).
    { intros m Hc. apply covers_cons, Hcov, covers_cons. by left. }
    assert (Hin_q : ∀ m, contains q m → contains p m ∨ covers ps m).
    { intros m Hc. apply covers_cons, Hcov, covers_cons. by left. }
    assert (Hstart : p.1 = q.1).
    { destruct (Hin_p p.1) as [Hc|Hc%Hlater_q]; [unfold contains; lia|..];
        destruct (Hin_q q.1) as [Hc'|Hc'%Hlater_p]; unfold contains in *; lia. }
    assert (Hend : p.2 = q.2).
    { destruct (Z.lt_trichotomy p.2 q.2) as [Hlt|[Heq|Hgt]]; [|done|].
      - destruct (Hin_q p.2) as [Hc|Hc%Hlater_p]; unfold contains in *; lia.
      - destruct (Hin_p q.2) as [Hc|Hc%Hlater_q]; unfold contains in *; lia. }
    assert (p = q) as -> by (destruct p, q; simpl in *; congruence).
    f_equal. apply IH; auto.
    intros m. split.
    + intros Hc. pose proof (Hlater_p _ Hc).
      assert (covers (q :: ps) m) as Hc' by (apply covers_cons; by right).
      apply Hcov, covers_cons in Hc' as [Hc'|Hc']; [unfold contains in Hc'; lia|done].
    + intros Hc. pose proof (Hlater_q _ Hc).
      assert (covers (q :: qs) m) as Hc' by (apply covers_cons; by right).
      apply Hcov, covers_cons in Hc' as [Hc'|Hc']; [unfold contains in Hc'; lia|done].
Qed.

(** What the engine returns on at least one well-formed entry. *)
Lemma find_common_covers schedules :
  schedules ≠ [] →
  Forall well_formed_schedule schedules →
  ∃ ps, find_common_electricity_periods schedules = Some (ps, []) ∧
    strictly_separated ps ∧ all_nonempty ps ∧
    ∀ m, covers ps m ↔
      0 ≤ m < 1440 ∧ ∀ s, s ∈ schedules → ∃ ws, windows_of s = Some ws ∧ covers ws m.
Proof.
  intros Hne Hwf. destruct schedules as [|s1 [|s2 rest]]; [done|..].
  - apply Forall_cons in Hwf as [(ivs & Hivs & Hwf) _].
    pose proof (get_electricity_periods_Some _ _ Hivs) as Hws.
    assert (Hc : chain 0 ivs).
    { apply well_formed_sorted_chain; [done|]. by eapply get_outage_intervals_sorted. }
    exists (complement 0 ivs). simpl. rewrite Hws. simpl.
    split; [done|]. split; [by apply complement_strictly_separated|].
    split; [apply complement_nonempty|].
    intros m. split.
    + intros Hcov. split.
      * destruct Hcov as (w & Hw & Hcw).
        pose proof (complement_bounds 0 ivs Hc (well_formed_upper _ Hwf)) as Hb.
        rewrite Forall_forall in Hb. specialize (Hb _ Hw). unfold contains in Hcw.
        simpl in Hb. lia.
      * intros s ->%list_elem_of_singleton. eauto.
    + intros [_ Hall]. destruct (Hall s1 ltac:(left)) as (ws & Hws' & Hcov).
      unfold windows_of in Hws'. congruence.
  - destruct (well_formed_windows _ Hwf) as (wss & Hm & Hb).
    assert (Hlen : (2 ≤ length (s1 :: s2 :: rest))%nat) by (simpl; lia).
    destruct (find_common_spec _ _ Hlen Hm Hb) as (ps & Hps & Hsep & Hn & Hcov).
    exists ps. split; [done|]. split; [done|]. split; [done|].
    intros m. rewrite Hcov. by rewrite (everyone_iff _ wss m) by (by apply mapM_Some).
Qed.

End engine_more.

(** X1. On well-formed entries every period the engine returns lies within
    the day and is not empty: [0 <= start < end <= 1440]. *)
Theorem common_periods_within_day (schedules : list Schedule)
    (ps : list interval) (other : list ExclusionPeriod) :
  Forall well_formed_schedule schedules →
  find_common_electricity_periods schedules = Some (ps, other) →
  Forall (λ p : interval, 0 ≤ p.1 ∧ p.1 < p.2 ∧ p.2 ≤ 1440) ps.
Proof.
  intros Hwf Hfc. destruct (decide (schedules = [])) as [->|Hne].
  { simpl in Hfc. simplify_eq. constructor. }
  destruct (find_common_covers _ Hne Hwf) as (ps' & Hps & _ & Hn & Hcov).
  rewrite Hps in Hfc. simplify_eq.
  unfold all_nonempty in Hn. rewrite Forall_forall in Hn |- *.
  intros p Hp. specialize (Hn _ Hp).
  assert (H1 : covers ps p.1) by (exists p; unfold contains; split; [done|lia]).
  assert (H2 : covers ps (p.2 - 1)) by (exists p; unfold contains; split; [done|lia]).
  apply Hcov in H1 as [H1 _]. apply Hcov in H2 as [H2 _]. lia.
Qed.

Lemma common_periods_within_day_witness :
  Forall well_formed_schedule [user_A; user_B] ∧
  find_common_electricity_periods [user_A; user_B]
    = Some ([(300, 510); (930, 1140)], []) ∧
  Forall (λ p : interval, 0 ≤ p.1 ∧ p.1 < p.2 ∧ p.2 ≤ 1440) [(300, 510); (930, 1140)].
Proof.
  assert (Hwf : Forall well_formed_schedule [user_A; user_B]).
  { repeat constructor.
    - solve_well_formed_schedule [(90, 300); (720, 930); (1350, 1440)].
    - solve_well_formed_schedule [(0, 90); (510, 720); (1140, 1350)]. }
  assert (Hfc : find_common_electricity_periods [user_A; user_B]
    = Some ([(300, 510); (930, 1140)], [])) by (vm_compute; reflexivity).
  split; [exact Hwf|]. split; [exact Hfc|].
  exact (common_periods_within_day _ _ _ Hwf Hfc).
Defined.

(** X2. The engine does not depend on the order of the entries: on
    well-formed entries a permutation of the input gives the same result. *)
Theorem common_periods_permutation (schedules schedules' : list Schedule) :
  schedules ≡ₚ schedules' →
  Forall well_formed_schedule schedules →
  find_common_electricity_periods schedules
  = find_common_electricity_periods schedules'.
Proof.
  intros Hp Hwf. destruct (decide (schedules = [])) as [->|Hne].
  { by apply Permutation_nil in Hp as ->. }
  assert (Hne' : schedules' ≠ []).
  { intros ->. by apply Permutation_nil_r in Hp. }
  assert (Hwf' : Forall well_formed_schedule schedules') by (by rewrite <- Hp).
  destruct (find_common_covers _ Hne Hwf) as (ps & -> & Hs & Hn & Hcov).
  destruct (find_common_covers _ Hne' Hwf') as (ps' & -> & Hs' & Hn' & Hcov').
  do 2 f_equal. apply canonical_unique; auto.
  intros m. rewrite Hcov, Hcov'.
  split; intros [Hr Hall]; (split; [done|]); intros s Hin; apply Hall.
  - by rewrite Hp.
  - by rewrite <- Hp.
Qed.

Lemma common_periods_permutation_witness :
  [user_A; user_B] ≡ₚ [user_B; user_A] ∧
  Forall well_formed_schedule [user_A; user_B] ∧
  find_common_electricity_periods [user_A; user_B]
  = find_common_electricity_periods [user_B; user_A].
Proof.
  assert (Hwf : Forall well_formed_schedule [user_A; user_B]).
  { repeat constructor.
    - solve_well_formed_schedule [(90, 300); (720, 930); (1350, 1440)].
    - solve_well_formed_schedule [(0, 90); (510, 720); (1140, 1350)]. }
  split; [apply perm_swap|]. split; [exact Hwf|].
  exact (common_periods_permutation _ _ (perm_swap _ _ _) Hwf).
Defined.

(** X3. A user without outages does not change the result: on well-formed
    entries, at least one, the engine returns the same periods with and
    without such a user. *)
Theorem common_periods_no_outage_user (u : Schedule) (schedules : list Schedule) :
  default [] (outages u) = [] →
  schedules ≠ [] →
  Forall well_formed_schedule schedules →
  find_common_electricity_periods (u :: schedules)
  = find_common_electricity_periods schedules.
Proof.
  intros Hu Hne Hwf.
  assert (Hwu : windows_of u = Some [(0, 1440)]).
  { unfold windows_of. by rewrite Hu. }
  assert (Hwfu : well_formed_schedule u).
  { exists []. rewrite Hu. split; [done|]. split; [constructor|done]. }
  destruct (find_common_covers (u :: schedules) ltac:(done) ltac:(by constructor))
    as (ps & -> & Hs & Hn & Hcov).
  destruct (find_common_covers _ Hne Hwf) as (ps' & -> & Hs' & Hn' & Hcov').
  do 2 f_equal. apply canonical_unique; auto.
  intros m. rewrite Hcov, Hcov'.
  split; intros [Hr Hall]; (split; [done|]); intros s Hin.
  - apply Hall. by right.
  - apply elem_of_cons in Hin as [->|Hin]; [|by apply Hall].
    exists [(0, 1440)]. split; [done|]. apply covers_singleton. unfold contains. simpl. lia.
Qed.

Lemma common_periods_no_outage_user_witness :
  default [] (outages (mkSchedule 3 "C" None)) = [] ∧
  [user_A; user_B] ≠ [] ∧
  Forall well_formed_schedule [user_A; user_B] ∧
  find_common_electricity_periods (mkSchedule 3 "C" None :: [user_A; user_B])
  = find_common_electricity_periods [user_A; user_B].
Proof.
  assert (Hwf : Forall well_formed_schedule [user_A; user_B]).
  { repeat constructor.
    - solve_well_formed_schedule [(90, 300); (720, 930); (1350, 1440)].
    - solve_well_formed_schedule [(0, 90); (510, 720); (1140, 1350)]. }
  assert (Hne : [user_A; user_B] ≠ []) by discriminate.
  split; [reflexivity|]. split; [exact Hne|]. split; [exact Hwf|].
  exact (common_periods_no_outage_user (mkSchedule 3 "C" None) _ eq_refl Hne Hwf).
Defined.

(** X4. More users never add common time: on well-formed entries, every
    minute of a period returned for all of them lies in a period returned for
    any non-empty selection of them. *)
Theorem common_periods_monotone (schedules schedules' : list Schedule) :
  schedules' ⊆ schedules →
  schedules' ≠ [] →
  Forall well_formed_schedule schedules →
  ∃ ps ps',
    find_common_electricity_periods schedules = Some (ps, []) ∧
    find_common_electricity_periods schedules' = Some (ps', []) ∧
    ∀ m, covers ps m → covers ps' m.
Proof.
  intros Hsub Hne' Hwf.
  assert (Hne : schedules ≠ []).
  { intros ->. destruct schedules' as [|s ?]; [done|].
    specialize (Hsub s ltac:(left)). by apply elem_of_nil in Hsub. }
  assert (Hwf' : Forall well_formed_schedule schedules').
  { rewrite Forall_forall in Hwf |- *. intros s Hs. by apply Hwf, Hsub. }
  destruct (find_common_covers _ Hne Hwf) as (ps & Hps & _ & _ & Hcov).
  destruct (find_common_covers _ Hne' Hwf') as (ps' & Hps' & _ & _ & Hcov').
  exists ps, ps'. split; [done|]. split; [done|].
  intros m [Hr Hall]%Hcov. apply Hcov'. split; [done|].
  intros s Hs. by apply Hall, Hsub.
Qed.

Lemma common_periods_monotone_witness :
  [user_A] ⊆ [user_A; user_B] ∧
  [user_A] ≠ [] ∧
  Forall well_formed_schedule [user_A; user_B] ∧
  ∃ ps ps',
    find_common_electricity_periods [user_A; user_B] = Some (ps, []) ∧
    find_common_electricity_periods [user_A] = Some (ps', []) ∧
    ∀ m, covers ps m → covers ps' m.
Proof.
  assert (Hwf : Forall well_formed_schedule [user_A; user_B]).
  { repeat constructor.
    - solve_well_formed_schedule [(90, 300); (720, 930); (1350, 1440)].
    - solve_well_formed_schedule [(0, 90); (510, 720); (1140, 1350)]. }
  assert (Hsub : [user_A] ⊆ [user_A; user_B]).
  { intros s ->%list_elem_of_singleton. left. }
  assert (Hne : [user_A] ≠ []) by discriminate.
  split; [exact Hsub|]. split; [exact Hne|]. split; [exact Hwf|].
  exact (common_periods_monotone _ _ Hsub Hne Hwf).
Defined.

(** ** Further properties of the Exclusion Analyzer *)

Section exclusion_more.

Lemma lookup_enumerate {A} (l : list A) idx x :
  l !! idx = Some x → (idx, x) ∈ enumerate l.
Proof.
  intros Hl. unfold enumerate. apply elem_of_lookup_imap. eauto.
Qed.

(** What the loop over the entries adds to the results. *)
Lemma exclusion_loop_elem schedules todo results res r :
  exclusion_loop schedules todo results = Some res →
  r ∈ res ↔
  r ∈ results ∨
  ∃ idx e outs commons other,
    (idx, e) ∈ todo ∧
    get_outage_intervals (default [] (outages e)) = Some outs ∧
    find_common_electricity_periods (take idx schedules ++ drop (S idx) schedules)
      = Some (commons, other) ∧
    r ∈ overlap_records e commons outs.
Proof.
  revert results. induction todo as [|[idx e] todo IH]; intros results; simpl.
  - intros ?; simplify_eq. split; [auto|].
    intros [?|(? & ? & ? & ? & ? & Hin & _)]; [done|]. by apply elem_of_nil in Hin.
  - destruct (get_outage_intervals (default [] (outages e))) as [outs|] eqn:Houts;
      simpl; [|done].
    destruct (find_common_electricity_periods _) as [[commons other]|] eqn:Hfc;
      simpl; [|done].
    intros Hl. rewrite (IH _ Hl), elem_of_app. split.
    + intros [[?|Hr]|(idx' & e' & outs' & commons' & other' & Hin & ? & ? & ?)].
      * by left.
      * right. exists idx, e, outs, commons, other. split; [left|]; auto.
      * right. exists idx', e', outs', commons', other'. split; [by right|]; auto.
    + intros [?|(idx' & e' & outs' & commons' & other' & Hin & Ho & Hc & Hr)]; [auto|].
      apply elem_of_cons in Hin as [Heq|Hin].
      * simplify_eq. left. right. done.
      * right. exists idx', e', outs', commons', other'. auto.
Qed.

Lemma elem_of_others {A} (l : list A) (i j : nat) x :
  l !! j = Some x → j ≠ i → x ∈ take i l ++ drop (S i) l.
Proof.
  intros Hl Hne. apply elem_of_app. destruct (decide (j < i)%nat).
  - left. apply list_elem_of_lookup. exists j. by rewrite lookup_take_lt.
  - right. apply list_elem_of_lookup. exists (j - S i)%nat.
    rewrite lookup_drop. by replace (S i + (j - S i))%nat with j by lia.
Qed.

Lemma others_subseteq {A} (l : list A) (i : nat) : take i l ++ drop (S i) l ⊆ l.
Proof.
  intros x [Hx|Hx]%elem_of_app.
  - by eapply subseteq_take.
  - by eapply subseteq_drop.
Qed.

Lemma others_nonempty {A} (l : list A) (i : nat) :
  (2 ≤ length l)%nat → take i l ++ drop (S i) l ≠ [].
Proof.
  intros Hlen Heq. apply (f_equal length) in Heq.
  rewrite length_app, length_take, length_drop in Heq. simpl in Heq. lia.
Qed.

(** A minute of an outage of a well-formed entry is not in its windows. *)
Lemma outage_not_window e outs ws m :
  well_formed_schedule e →
  get_outage_intervals (default [] (outages e)) = Some outs →
  windows_of e = Some ws →
  covers outs m → covers ws m → False.
Proof.
  intros (ivs & Hivs & Hwf) Houts Hws Ho Hw.
  rewrite Hivs in Houts. simplify_eq.
  unfold windows_of in Hws. rewrite (get_electricity_periods_Some _ _ Hivs) in Hws.
  simplify_eq.
  assert (Hc : chain 0 outs).
  { apply well_formed_sorted_chain; [done|]. by eapply get_outage_intervals_sorted. }
  destruct (complement_partition 0 outs m Hc (well_formed_upper _ Hwf)) as [_ Hno].
  by apply Hno.
Qed.

(** The records of a run on well-formed entries. *)
Lemma find_n_minus_one_ok schedules results :
  (2 ≤ length schedules)%nat →
  Forall well_formed_schedule schedules →
  find_n_minus_one_periods schedules = Some results →
  Forall (exclusion_ok schedules) results.
Proof.
  intros Hlen Hwf. unfold find_n_minus_one_periods. case_decide; [lia|]. intros Hl.
  destruct (exclusion_loop_spec schedules (enumerate schedules) []) as (res & Hres & Hok).
  - eapply Forall_impl; [exact Hwf|]. intros s (ivs & Hivs & _). simpl.
    unfold windows_of. rewrite (get_electricity_periods_Some _ _ Hivs). eauto.
  - intros idx e. apply elem_of_enumerate.
  - constructor.
  - congruence.
Qed.

End exclusion_more.

(** X5. The analyzer misses nothing: on at least two well-formed entries,
    every minute at which an entry [e] has an outage and every other entry has
    power lies in a record emitted for [e]. *)
Theorem exclusion_periods_complete (schedules : list Schedule)
    (results : list ExclusionPeriod) (idx : nat) (e : Schedule)
    (outs : list interval) (m : Z) :
  (2 ≤ length schedules)%nat →
  Forall well_formed_schedule schedules →
  find_n_minus_one_periods schedules = Some results →
  schedules !! idx = Some e →
  get_outage_intervals (default [] (outages e)) = Some outs →
  covers outs m →
  (∀ s, s ∈ take idx schedules ++ drop (S idx) schedules →
     ∃ ws, get_electricity_periods (default [] (outages s)) = Some ws ∧ covers ws m) →
  ∃ r, r ∈ results ∧
    missing_user_id r = user_id e ∧ missing_username r = username e ∧
    start r ≤ m < end_ r.
Proof.
  intros Hlen Hwf Hres Hidx Houts Ho Hothers.
  set (others := take idx schedules ++ drop (S idx) schedules) in *.
  assert (Hwfo : Forall well_formed_schedule others).
  { rewrite Forall_forall in Hwf |- *. intros s Hs. by apply Hwf, (others_subseteq _ idx). }
  destruct (find_common_covers others (others_nonempty _ idx Hlen) Hwfo)
    as (commons & Hfc & _ & _ & Hcov).
  assert (Hday : 0 ≤ m < 1440).
  { rewrite Forall_forall in Hwf.
    destruct (Hwf e) as (ivs & Hivs & Hb & _); [apply list_elem_of_lookup; eauto|].
    rewrite Hivs in Houts. simplify_eq.
    destruct Ho as (o & Hin & Hc). rewrite Forall_forall in Hb.
    specialize (Hb _ Hin). unfold contains in Hc. lia. }
  assert (Hc : covers commons m) by (apply Hcov; split; [done|exact Hothers]).
  destruct Hc as (c & Hcin & Hcm). destruct Ho as (o & Hoin & Hom).
  unfold contains in Hcm, Hom.
  set (r := {| missing_user_id := user_id e;
               missing_username := username e;
               start := Z.max c.1 o.1;
               end_ := Z.min c.2 o.2;
               start_hhmm := minutes_to_hhmm (Z.max c.1 o.1);
               end_hhmm := minutes_to_hhmm (Z.min c.2 o.2);
               duration_minutes := Z.min c.2 o.2 - Z.max c.1 o.1 |}).
  exists r. split; [|simpl; repeat split; lia].
  unfold find_n_minus_one_periods in Hres. case_decide; [lia|].
  apply (exclusion_loop_elem _ _ _ _ r Hres). right.
  exists idx, e, outs, commons, []. split; [by apply lookup_enumerate|].
  split; [done|]. split; [done|].
  unfold overlap_records. apply list_elem_of_bind. exists c. split; [|done].
  apply list_elem_of_bind. exists o. split; [|done].
  unfold overlap_record. case_decide; [left|lia].
Qed.

Lemma exclusion_periods_complete_witness :
  ∃ results r,
    find_n_minus_one_periods [user_A; user_B] = Some results ∧
    r ∈ results ∧
    missing_user_id r = user_id user_A ∧ missing_username r = username user_A ∧
    start r ≤ 100 < end_ r.
Proof.
  assert (Hlen : (2 ≤ length [user_A; user_B])%nat) by (simpl; lia).
  assert (Hwf : Forall well_formed_schedule [user_A; user_B]).
  { repeat constructor.
    - solve_well_formed_schedule [(90, 300); (720, 930); (1350, 1440)].
    - solve_well_formed_schedule [(0, 90); (510, 720); (1140, 1350)]. }
  destruct (find_n_minus_one_periods [user_A; user_B]) as [results|] eqn:Hres;
    [|vm_compute in Hres; discriminate].
  exists results.
  assert (Houts : get_outage_intervals (default [] (outages user_A))
    = Some [(90, 300); (720, 930); (1350, 1440)]) by (vm_compute; reflexivity).
  assert (Ho : covers [(90, 300); (720, 930); (1350, 1440)] 100).
  { exists (90, 300). split; [left|]. unfold contains. simpl. lia. }
  assert (Hothers : ∀ s, s ∈ take 0 [user_A; user_B] ++ drop 1 [user_A; user_B] →
     ∃ ws, get_electricity_periods (default [] (outages s)) = Some ws ∧ covers ws 100).
  { intros s ->%list_elem_of_singleton.
    exists [(90, 510); (720, 1140); (1350, 1440)]. split; [vm_compute; reflexivity|].
    exists (90, 510). split; [left|]. unfold contains. simpl. lia. }
  destruct (exclusion_periods_complete [user_A; user_B] results 0 user_A _ 100
              Hlen Hwf Hres eq_refl Houts Ho Hothers) as (r & Hr).
  exists r. split; [reflexivity|exact Hr].
Defined.

(** X6. On at least two well-formed entries no minute of an emitted record is
    common time of all entries: the records and the engine's periods for the
    whole input are disjoint. *)
Theorem exclusion_disjoint_from_common (schedules : list Schedule)
    (results : list ExclusionPeriod) (ps : list interval)
    (other : list ExclusionPeriod) :
  (2 ≤ length schedules)%nat →
  Forall well_formed_schedule schedules →
  find_n_minus_one_periods schedules = Some results →
  find_common_electricity_periods schedules = Some (ps, other) →
  ∀ r m, r ∈ results → start r ≤ m < end_ r → ¬ covers ps m.
Proof.
  intros Hlen Hwf Hres Hfc r m Hr Hm Hcov.
  pose proof (find_n_minus_one_ok _ _ Hlen Hwf Hres) as Hok.
  rewrite Forall_forall in Hok.
  destruct (Hok _ Hr) as (idx & e & outs & commons & o & c & Hidx & _ & _ & Houts
                          & _ & Ho & _ & _ & Ho1 & Ho2 & _ & _).
  assert (He : e ∈ schedules) by (apply list_elem_of_lookup; eauto).
  destruct (find_common_covers schedules) as (ps' & Hps' & _ & _ & Hcov'); [|done|].
  { intros ->. simpl in Hlen. lia. }
  rewrite Hps' in Hfc. simplify_eq.
  apply Hcov' in Hcov as [_ Hall]. destruct (Hall _ He) as (ws & Hws & Hw).
  rewrite Forall_forall in Hwf.
  apply (outage_not_window e outs ws m); auto.
  exists o. split; [done|]. unfold contains. lia.
Qed.

Lemma exclusion_disjoint_from_common_witness :
  ∃ results,
    find_n_minus_one_periods [user_A; user_B] = Some results ∧
    ∀ r m, r ∈ results → start r ≤ m < end_ r →
      ¬ covers [(300, 510); (930, 1140)] m.
Proof.
  assert (Hlen : (2 ≤ length [user_A; user_B])%nat) by (simpl; lia).
  assert (Hwf : Forall well_formed_schedule [user_A; user_B]).
  { repeat constructor.
    - solve_well_formed_schedule [(90, 300); (720, 930); (1350, 1440)].
    - solve_well_formed_schedule [(0, 90); (510, 720); (1140, 1350)]. }
  destruct (find_n_minus_one_periods [user_A; user_B]) as [results|] eqn:Hres;
    [|vm_compute in Hres; discriminate].
  exists results. split; [reflexivity|].
  apply (exclusion_disjoint_from_common [user_A; user_B] results _ [] Hlen Hwf Hres).
  vm_compute. reflexivity.
Defined.

(** X7. At no minute are two different users the missing one: on at least two
    well-formed entries, records with different [missing_user_id] do not
    overlap. *)
Theorem exclusion_users_disjoint (schedules : list Schedule)
    (results : list ExclusionPeriod) :
  (2 ≤ length schedules)%nat →
  Forall well_formed_schedule schedules →
  find_n_minus_one_periods schedules = Some results →
  ∀ r1 r2 m, r1 ∈ results → r2 ∈ results →
    missing_user_id r1 ≠ missing_user_id r2 →
    ¬ (start r1 ≤ m < end_ r1 ∧ start r2 ≤ m < end_ r2).
Proof.
  intros Hlen Hwf Hres r1 r2 m Hr1 Hr2 Hid [Hm1 Hm2].
  pose proof (find_n_minus_one_ok _ _ Hlen Hwf Hres) as Hok.
  rewrite Forall_forall in Hok.
  destruct (Hok _ Hr1) as (idx1 & e1 & outs1 & commons1 & o1 & c1 & Hidx1 & Hid1 & _
                           & _ & Hfc1 & _ & Hc1 & _ & _ & _ & Hc11 & Hc12).
  destruct (Hok _ Hr2) as (idx2 & e2 & outs2 & commons2 & o2 & c2 & Hidx2 & Hid2 & _
                           & Houts2 & _ & Ho2 & _ & _ & Ho21 & Ho22 & _ & _).
  assert (Hne : idx2 ≠ idx1) by (intros ->; congruence).
  set (others := take idx1 schedules ++ drop (S idx1) schedules) in *.
  assert (He2 : e2 ∈ others) by (by apply (elem_of_others _ idx1 idx2)).
  assert (Hwfo : Forall well_formed_schedule others).
  { rewrite Forall_forall in Hwf |- *. intros s Hs. by apply Hwf, (others_subseteq _ idx1). }
  destruct (find_common_covers others (others_nonempty _ idx1 Hlen) Hwfo)
    as (commons & Hfc & _ & _ & Hcov).
  rewrite Hfc in Hfc1. simplify_eq.
  assert (Hc : covers commons1 m).
  { exists c1. split; [done|]. unfold contains. lia. }
  apply Hcov in Hc as [_ Hall]. destruct (Hall _ He2) as (ws & Hws & Hw).
  rewrite Forall_forall in Hwf.
  apply (outage_not_window e2 outs2 ws m); auto.
  - apply Hwf, list_elem_of_lookup. eauto.
  - exists o2. split; [done|]. unfold contains. lia.
Qed.

Lemma exclusion_users_disjoint_witness :
  ∃ results,
    find_n_minus_one_periods [user_A; user_B] = Some results ∧
    ∀ r1 r2 m, r1 ∈ results → r2 ∈ results →
      missing_user_id r1 ≠ missing_user_id r2 →
      ¬ (start r1 ≤ m < end_ r1 ∧ start r2 ≤ m < end_ r2).
Proof.
  assert (Hlen : (2 ≤ length [user_A; user_B])%nat) by (simpl; lia).
  assert (Hwf : Forall well_formed_schedule [user_A; user_B]).
  { repeat constructor.
    - solve_well_formed_schedule [(90, 300); (720, 930); (1350, 1440)].
    - solve_well_formed_schedule [(0, 90); (510, 720); (1140, 1350)]. }
  destruct (find_n_minus_one_periods [user_A; user_B]) as [results|] eqn:Hres;
    [|vm_compute in Hres; discriminate].
  exists results. split; [reflexivity|].
  exact (exclusion_users_disjoint [user_A; user_B] results Hlen Hwf Hres).
Defined.

(** X8. For a well-formed outage list the availability windows lie within the
    day, none is empty, and no window starts where the previous one ends. *)
Theorem availability_windows_maximal (outages : list Outage) (ivs : list interval) :
  get_outage_intervals outages = Some ivs →
  well_formed ivs →
  ∃ ws, get_electricity_periods outages = Some ws ∧
    Forall (λ w : interval, 0 ≤ w.1 ∧ w.1 < w.2 ∧ w.2 ≤ 1440) ws ∧
    maximal ws.
Proof.
  intros Hivs Hwf. exists (complement 0 ivs).
  split; [by apply get_electricity_periods_Some|].
  assert (Hc : chain 0 ivs).
  { apply well_formed_sorted_chain; [done|]. by eapply get_outage_intervals_sorted. }
  split.
  - pose proof (complement_bounds 0 ivs Hc (well_formed_upper _ Hwf)) as Hb.
    pose proof (complement_nonempty 0 ivs) as Hn. unfold all_nonempty in Hn.
    rewrite Forall_forall in Hb, Hn |- *. intros w Hw.
    specialize (Hb _ Hw). specialize (Hn _ Hw). simpl in *. lia.
  - by apply strictly_separated_maximal, complement_strictly_separated.
Qed.

Lemma availability_windows_maximal_witness :
  get_outage_intervals (default [] (outages user_A))
    = Some [(90, 300); (720, 930); (1350, 1440)] ∧
  well_formed [(90, 300); (720, 930); (1350, 1440)] ∧
  ∃ ws, get_electricity_periods (default [] (outages user_A)) = Some ws ∧
    Forall (λ w : interval, 0 ≤ w.1 ∧ w.1 < w.2 ∧ w.2 ≤ 1440) ws ∧
    maximal ws.
Proof.
  assert (Hc : get_outage_intervals (default [] (outages user_A))
    = Some [(90, 300); (720, 930); (1350, 1440)]) by (vm_compute; reflexivity).
  assert (Hw : well_formed [(90, 300); (720, 930); (1350, 1440)]).
  { solve_well_formed. }
  split; [exact Hc|]. split; [exact Hw|].
  exact (availability_windows_maximal _ _ Hc Hw).
Defined.

(** ** The service client and the analyzer together *)

Section api.

Lemma roundtrip_check_day m : 0 ≤ m ≤ 1440 → roundtrip_check m = true.
Proof.
  intros Hm.
  assert (Hall : forallb roundtrip_check (List.map Z.of_nat (seq 0 1441)) = true)
    by (vm_compute; reflexivity).
  rewrite forallb_forall in Hall. apply Hall.
  apply in_map_iff. exists (Z.to_nat m). split; [lia|apply in_seq; lia].
Qed.

Lemma minute_roundtrip_aligned m :
  0 ≤ m ≤ 1440 → m `mod` 15 = 0 →
  ∃ hour, PyMore.int_truediv m 60 = Some hour ∧
    convert_hour_to_minutes (Py.Float hour) = Some m.
Proof.
  intros Hm Hal. pose proof (roundtrip_check_day m Hm) as Hc.
  unfold roundtrip_check, minute_roundtrip in Hc.
  destruct (PyMore.int_truediv m 60) as [hour|]; cbn [mbind option_bind] in Hc; [|done].
  exists hour. split; [done|].
  destruct (convert_hour_to_minutes (Py.Float hour)) as [r|]; [|done].
  apply bool_decide_eq_true_1 in Hc as [_ Hr]. by rewrite (Hr Hal).
Qed.

Lemma mapM_snoc {A B} (f : A → option B) l x k y :
  mapM f l = Some k → f x = Some y → mapM f (l ++ [x]) = Some (k ++ [y]).
Proof.
  rewrite !mapM_Some. intros Hl Hx. apply Forall2_app; [done|]. by repeat constructor.
Qed.

(** The loop on aligned slots: the outages appended convert back to the
    minutes of the ["Definite"] slots. *)
Lemma extract_loop_aligned slots acc ivs :
  Forall aligned_slot slots →
  mapM outage_interval acc = Some ivs →
  ∃ outages, extract_loop slots acc = Some outages ∧
    mapM outage_interval outages = Some (ivs ++ definite_minutes slots).
Proof.
  intros Hal. revert acc ivs. induction Hal as [|slot rest Hslot Hal IH]; intros acc ivs Hacc.
  - exists acc. split; [done|]. by rewrite app_nil_r.
  - cbn [extract_loop]. unfold definite_minutes. cbn [mbind list_bind].
    fold (definite_minutes rest).
    case_decide as Ht; [|simpl; by apply IH].
    destruct (Hslot Ht) as (s & e & Hs & He & [Hs1 Hs2] & [He1 He2]).
    unfold slot_minutes. rewrite Hs, He. cbn [PyMore.truediv_60].
    destruct (minute_roundtrip_aligned s Hs1 Hs2) as (sh & -> & Hsc).
    destruct (minute_roundtrip_aligned e He1 He2) as (eh & -> & Hec).
    cbn [mbind option_bind].
    destruct (IH (acc ++ [mkOutage (Some (Py.Float sh)) (Some (Py.Float eh))])
                 (ivs ++ [(s, e)])) as (outages & Hl & Hm).
    { apply mapM_snoc; [done|]. unfold outage_interval.
      cbn [start_hour end_hour default from_option id].
      rewrite Hsc. cbn [mbind option_bind]. by rewrite Hec. }
    exists outages. split; [done|]. rewrite Hm. by rewrite <- app_assoc.
Qed.

End api.

(** X9. A minute of the day that the service client turns into an hour
    ([m / 60]) comes back from [convert_hour_to_minutes] as [m] or as [m - 1];
    it comes back exactly on every quarter hour, and minute 80 comes back as
    79. *)
Theorem minute_roundtrip_loses_at_most_one (m : Z) :
  0 ≤ m ≤ 1440 →
  (∃ r, minute_roundtrip m = Some r ∧ m - 1 ≤ r ≤ m ∧ (m `mod` 15 = 0 → r = m)) ∧
  minute_roundtrip 80 = Some 79.
Proof.
  intros Hm. split; [|vm_compute; reflexivity].
  pose proof (roundtrip_check_day m Hm) as Hc. unfold roundtrip_check in Hc.
  destruct (minute_roundtrip m) as [r|]; [|done].
  exists r. split; [done|]. by apply bool_decide_eq_true_1 in Hc.
Qed.

Lemma minute_roundtrip_loses_at_most_one_witness :
  0 ≤ 61 ≤ 1440 ∧
  (∃ r, minute_roundtrip 61 = Some r ∧ 61 - 1 ≤ r ≤ 61 ∧ (61 `mod` 15 = 0 → r = 61)) ∧
  minute_roundtrip 80 = Some 79.
Proof.
  split; [lia|]. apply minute_roundtrip_loses_at_most_one. lia.
Defined.

(** X10. When every ["Definite"] slot has integer bounds on quarter hours of
    the day, the outages the client extracts convert back, in
    [get_outage_intervals], to exactly the minute intervals of the
    ["Definite"] slots, sorted; the other slots leave no trace. *)
Theorem extracted_outages_recover_slots (slots : list Slot) :
  Forall aligned_slot slots →
  ∃ outages,
    extract_definite_outages (Some slots) = Some outages ∧
    get_outage_intervals outages = Some (Py.sorted_tuples (definite_minutes slots)).
Proof.
  intros Hal.
  destruct (extract_loop_aligned slots [] [] Hal eq_refl) as (outages & Hl & Hm).
  exists outages. split; [done|].
  unfold get_outage_intervals. by rewrite Hm.
Qed.

Lemma extracted_outages_recover_slots_witness :
  Forall aligned_slot
    [mkSlot (Some "NotPlanned") (Some (Py.Int 0)) (Some (Py.Int 510));
     mkSlot (Some "Definite") (Some (Py.Int 510)) (Some (Py.Int 720))] ∧
  ∃ outages,
    extract_definite_outages
      (Some [mkSlot (Some "NotPlanned") (Some (Py.Int 0)) (Some (Py.Int 510));
             mkSlot (Some "Definite") (Some (Py.Int 510)) (Some (Py.Int 720))])
      = Some outages ∧
    get_outage_intervals outages
      = Some (Py.sorted_tuples
                (definite_minutes
                   [mkSlot (Some "NotPlanned") (Some (Py.Int 0)) (Some (Py.Int 510));
                    mkSlot (Some "Definite") (Some (Py.Int 510)) (Some (Py.Int 720))])).
Proof.
  assert (Hal : Forall aligned_slot
    [mkSlot (Some "NotPlanned") (Some (Py.Int 0)) (Some (Py.Int 510));
     mkSlot (Some "Definite") (Some (Py.Int 510)) (Some (Py.Int 720))]).
  { repeat constructor.
    - intros Ht. discriminate Ht.
    - intros _. exists 510, 720. simpl. repeat split; lia. }
  split; [exact Hal|].
  exact (extracted_outages_recover_slots _ Hal).
Defined.

(** X11. From the service's slots to the windows: when the ["Definite"]
    slots have integer bounds on quarter hours and form a well-formed outage
    list, the availability windows computed from the extracted outages and the
    minutes of the ["Definite"] slots partition the day. *)
Theorem extracted_outages_partition (slots : list Slot) :
  Forall aligned_slot slots →
  well_formed (definite_minutes slots) →
  ∃ outages ws,
    extract_definite_outages (Some slots) = Some outages ∧
    get_electricity_periods outages = Some ws ∧
    ∀ m : Z,
      (covers (definite_minutes slots) m ∨ covers ws m ↔ 0 ≤ m < 1440) ∧
      ¬ (covers (definite_minutes slots) m ∧ covers ws m).
Proof.
  intros Hal Hwf.
  destruct (extract_loop_aligned slots [] [] Hal eq_refl) as (outages & Hl & Hm).
  set (ivs := Py.sorted_tuples (definite_minutes slots)).
  assert (Hivs : get_outage_intervals outages = Some ivs).
  { unfold get_outage_intervals. by rewrite Hm. }
  assert (Hwf' : well_formed ivs).
  { eapply well_formed_Permutation; [|exact Hwf]. symmetry. apply sorted_tuples_perm. }
  assert (Hc : chain 0 ivs).
  { apply well_formed_sorted_chain; [done|apply sorted_tuples_sorted]. }
  assert (Hcov : ∀ m, covers ivs m ↔ covers (definite_minutes slots) m).
  { intros m. unfold covers, ivs.
    split; intros (p & Hp & Hpm); exists p; (split; [|done]).
    - by rewrite sorted_tuples_perm in Hp.
    - by rewrite sorted_tuples_perm. }
  exists outages, (complement 0 ivs).
  split; [done|]. split; [by apply get_electricity_periods_Some|].
  intros m. rewrite <- Hcov.
  apply complement_partition; [done|by apply well_formed_upper].
Qed.

Lemma extracted_outages_partition_witness :
  Forall aligned_slot
    [mkSlot (Some "Definite") (Some (Py.Int 510)) (Some (Py.Int 720));
     mkSlot (Some "Definite") None (Some (Py.Int 90))] ∧
  well_formed
    (definite_minutes
       [mkSlot (Some "Definite") (Some (Py.Int 510)) (Some (Py.Int 720));
        mkSlot (Some "Definite") None (Some (Py.Int 90))]) ∧
  ∃ outages ws,
    extract_definite_outages
      (Some [mkSlot (Some "Definite") (Some (Py.Int 510)) (Some (Py.Int 720));
             mkSlot (Some "Definite") None (Some (Py.Int 90))]) = Some outages ∧
    get_electricity_periods outages = Some ws ∧
    ∀ m : Z,
      (covers (definite_minutes
                 [mkSlot (Some "Definite") (Some (Py.Int 510)) (Some (Py.Int 720));
                  mkSlot (Some "Definite") None (Some (Py.Int 90))]) m
       ∨ covers ws m ↔ 0 ≤ m < 1440) ∧
      ¬ (covers (definite_minutes
                   [mkSlot (Some "Definite") (Some (Py.Int 510)) (Some (Py.Int 720));
                    mkSlot (Some "Definite") None (Some (Py.Int 90))]) m
         ∧ covers ws m).
Proof.
  assert (Hal : Forall aligned_slot
    [mkSlot (Some "Definite") (Some (Py.Int 510)) (Some (Py.Int 720));
     mkSlot (Some "Definite") None (Some (Py.Int 90))]).
  { repeat constructor.
    - intros _. exists 510, 720. simpl. repeat split; lia.
    - intros _. exists 0, 90. simpl. repeat split; lia. }
  assert (Hwf : well_formed
    (definite_minutes
       [mkSlot (Some "Definite") (Some (Py.Int 510)) (Some (Py.Int 720));
        mkSlot (Some "Definite") None (Some (Py.Int 90))])).
  { solve_well_formed. }
  split; [exact Hal|]. split; [exact Hwf|].
  exact (extracted_outages_partition _ Hal Hwf).
Defined.

(** ** The hour formatters *)

Section format_hour.

Lemma int_of_float_exn x :
  PyMore.int_of_float x =
  match Py.int_of_float x with
  | Some n => inr n
  | None => inl (match x with S754_nan => PyMore.ValueError | _ => PyMore.OverflowError end)
  end.
Proof. by destruct x. Qed.

Lemma float_of_int_exn n :
  PyMore.float_of_int n =
  match Py.float_of_int n with
  | Some x => inr x
  | None => inl PyMore.OverflowError
  end.
Proof.
  unfold PyMore.float_of_int, Py.float_of_int.
  by destruct (binary_normalize Py.prec Py.emax n 0 false).
Qed.

Lemma convert_hour_parts x :
  convert_hour_to_minutes (Py.Float x) = (λ p, p.1 * 60 + p.2) <$> hour_parts x.
Proof.
  unfold convert_hour_to_minutes, hour_parts.
  destruct (Py.int_of_float x) as [hours|]; [|done]. cbn [mbind option_bind].
  destruct (Py.float_of_int hours) as [fhours|]; [|done]. cbn [mbind option_bind].
  destruct (Py.float_of_int 60) as [f60|]; [|done]. cbn [mbind option_bind].
  by destruct (Py.int_of_float (Py.fmul (Py.fsub x fhours) f60)).
Qed.

Lemma format_hour_parts x hours minutes :
  hour_parts x = Some (hours, minutes) →
  format_hour_api (Py.Float x)
  = inr (Py.fmt_02d hours +:+ ":" +:+ Py.fmt_02d minutes).
Proof.
  unfold hour_parts, format_hour_api.
  rewrite int_of_float_exn.
  destruct (Py.int_of_float x) as [h|]; [|done]. cbn [mbind option_bind PyMore.bind].
  rewrite float_of_int_exn.
  destruct (Py.float_of_int h) as [fh|]; [|done]. cbn [mbind option_bind PyMore.bind].
  rewrite float_of_int_exn.
  destruct (Py.float_of_int 60) as [f60|]; [|done]. cbn [mbind option_bind PyMore.bind].
  rewrite int_of_float_exn.
  destruct (Py.int_of_float (Py.fmul (Py.fsub x fh) f60)) as [mi|]; [|done].
  cbn [mbind option_bind PyMore.bind]. intros ?. by simplify_eq.
Qed.

Lemma hour_parts_in_range x :
  Py.finite x → 0 ≤ Py.floor x → Py.ceil x ≤ 24 →
  ∃ minutes, hour_parts x = Some (Py.floor x, minutes).
Proof.
  intros Hfin Hlo Hhi.
  destruct (convert_float_in_range x Hfin Hlo Hhi) as (fhours & _ & Hc).
  rewrite convert_hour_parts in Hc.
  destruct (hour_parts x) as [[h mi]|] eqn:Hp; [|done].
  exists mi. do 2 f_equal.
  unfold hour_parts in Hp.
  destruct (Py.int_of_float x) as [h'|] eqn:Hi; [|done].
  assert (h' = Py.floor x).
  { destruct x as [s|s| |[] m e]; simpl in *; try done; simplify_eq; try done.
    apply Z.shiftl_nonneg in Hlo. lia. }
  subst h'. cbn [mbind option_bind] in Hp.
  destruct (Py.float_of_int (Py.floor x)); [|done]. cbn [mbind option_bind] in Hp.
  destruct (Py.float_of_int 60); [|done]. cbn [mbind option_bind] in Hp.
  destruct (Py.int_of_float _); [|done]. cbn [mbind option_bind] in Hp. by simplify_eq.
Qed.

End format_hour.

(** X12. [YasnoAPI._format_hour] turns a NaN into the placeholder, never
    raises a [ValueError], [TypeError] or [ZeroDivisionError], but lets the
    [OverflowError] of an infinite hour escape, where
    [YasnoWebParser._format_hour] returns the placeholder. *)
Theorem format_hour_errors :
  format_hour_api (Py.Float S754_nan) = inr "??:??" ∧
  (∀ s : bool,
     format_hour_api (Py.Float (S754_infinity s)) = inl PyMore.OverflowError ∧
     format_hour_web (Py.Float (S754_infinity s)) = "??:??") ∧
  (∀ (hour : Py.num) (e : PyMore.exn),
     format_hour_api hour = inl e → e = PyMore.OverflowError).
Proof.
  split; [done|]. split; [by intros s|].
  intros hour e. unfold format_hour_api.
  destruct hour as [n|x]; [done|].
  rewrite int_of_float_exn.
  destruct (Py.int_of_float x) as [h|]; cbn [PyMore.bind].
  2:{ destruct x; intros ?; by simplify_eq. }
  rewrite float_of_int_exn.
  destruct (Py.float_of_int h) as [fh|]; cbn [PyMore.bind]; [|intros ?; by simplify_eq].
  rewrite float_of_int_exn.
  destruct (Py.float_of_int 60) as [f60|]; cbn [PyMore.bind]; [|intros ?; by simplify_eq].
  rewrite int_of_float_exn.
  destruct (Py.int_of_float (Py.fmul (Py.fsub x fh) f60)) as [mi|]; cbn [PyMore.bind].
  - done.
  - destruct (Py.fmul (Py.fsub x fh) f60); intros ?; by simplify_eq.
Qed.

(** X13. For a float hour of [0, 24] both formatters show the hour part and
    the minute part whose sum in minutes [convert_hour_to_minutes] returns:
    the displayed clock and the analyzed minute agree. *)
Theorem format_hour_agrees_with_conversion (x : spec_float) :
  Py.finite x → 0 ≤ Py.floor x → Py.ceil x ≤ 24 →
  ∃ minutes : Z,
    format_hour_api (Py.Float x)
      = inr (Py.fmt_02d (Py.floor x) +:+ ":" +:+ Py.fmt_02d minutes) ∧
    format_hour_web (Py.Float x)
      = Py.fmt_02d (Py.floor x) +:+ ":" +:+ Py.fmt_02d minutes ∧
    convert_hour_to_minutes (Py.Float x) = Some (Py.floor x * 60 + minutes).
Proof.
  intros Hfin Hlo Hhi.
  destruct (hour_parts_in_range x Hfin Hlo Hhi) as (minutes & Hp).
  exists minutes.
  pose proof (format_hour_parts _ _ _ Hp) as Hf.
  split; [done|]. split.
  - unfold format_hour_web. by rewrite Hf.
  - rewrite convert_hour_parts, Hp. done.
Qed.

Lemma format_hour_agrees_with_conversion_witness :
  Py.finite (Py.ratio 17 2) ∧ 0 ≤ Py.floor (Py.ratio 17 2) ∧
  Py.ceil (Py.ratio 17 2) ≤ 24 ∧
  ∃ minutes : Z,
    format_hour_api (Py.Float (Py.ratio 17 2))
      = inr (Py.fmt_02d (Py.floor (Py.ratio 17 2)) +:+ ":" +:+ Py.fmt_02d minutes) ∧
    format_hour_web (Py.Float (Py.ratio 17 2))
      = Py.fmt_02d (Py.floor (Py.ratio 17 2)) +:+ ":" +:+ Py.fmt_02d minutes ∧
    convert_hour_to_minutes (Py.Float (Py.ratio 17 2))
      = Some (Py.floor (Py.ratio 17 2) * 60 + minutes).
Proof.
  assert (Hfin : Py.finite (Py.ratio 17 2)) by (vm_compute; exact I).
  assert (Hlo : 0 ≤ Py.floor (Py.ratio 17 2)) by (vm_compute; discriminate).
  assert (Hhi : Py.ceil (Py.ratio 17 2) ≤ 24) by (vm_compute; discriminate).
  split; [exact Hfin|]. split; [exact Hlo|]. split; [exact Hhi|].
  exact (format_hour_agrees_with_conversion _ Hfin Hlo Hhi).
Defined.

(** ** The debug reply *)

Section replies.

Context {A : Type}.
Implicit Types text : list A.

(** The first [n] chunks of size [s] make up the first [n * s] characters. *)
Lemma concat_chunks text (s n : nat) :
  concat ((λ i, take s (drop i text)) <$> ((λ k, k * s)%nat <$> seq 0 n))
  = take (n * s) text.
Proof.
  induction n as [|n IH]; [done|].
  rewrite seq_S, !fmap_app, concat_app, IH. simpl.
  rewrite app_nil_r, take_take_drop. f_equal. lia.
Qed.

Lemma ceil_div_mul (len s : nat) : (0 < s → len ≤ (len + s - 1) `div` s * s)%nat.
Proof.
  intros Hs. pose proof (Nat.div_mod_eq (len + s - 1) s) as Hd.
  pose proof (Nat.mod_upper_bound (len + s - 1) s ltac:(lia)). nia.
Qed.

Lemma ceil_div_lt (len s k : nat) :
  (0 < s → k < (len + s - 1) `div` s → k * s < len)%nat.
Proof.
  intros Hs Hk. pose proof (Nat.div_mod_eq (len + s - 1) s) as Hd.
  pose proof (Nat.mod_upper_bound (len + s - 1) s ltac:(lia)). nia.
Qed.

Lemma chunks_spec text (s : nat) :
  (0 < s)%nat →
  let chunks := (λ i, take s (drop i text)) <$> PyMore.range_step (length text) s in
  concat chunks = text ∧
  Forall (λ c, 0 < length c ≤ s)%nat chunks.
Proof.
  intros Hs. unfold PyMore.range_step. split.
  - rewrite concat_chunks. apply take_ge. by apply ceil_div_mul.
  - apply Forall_forall. intros c (i & -> & (k & -> & Hk)%list_elem_of_fmap)%list_elem_of_fmap.
    apply elem_of_seq in Hk as [_ Hk]. simpl in Hk.
    pose proof (ceil_div_lt (length text) s k Hs Hk).
    rewrite length_take, length_drop. lia.
Qed.

End replies.

(** X14. The texts sent by [debug_command] put together are the whole debug
    text, none is longer than 4000 characters, and none is empty unless the
    debug text is. *)
Theorem debug_replies_reassemble {A : Type} (debug_text : list A) :
  concat (debug_replies debug_text) = debug_text ∧
  Forall (λ reply, length reply ≤ 4000)%nat (debug_replies debug_text) ∧
  (debug_text ≠ [] → Forall (λ reply, reply ≠ []) (debug_replies debug_text)).
Proof.
  unfold debug_replies. case_decide as Hlen.
  - assert (Hpos : (0 < 4000)%nat) by (apply Nat.ltb_lt; vm_compute; reflexivity).
    destruct (chunks_spec debug_text 4000 Hpos) as [Hc Hl].
    split; [done|]. split.
    + eapply Forall_impl; [exact Hl|]. simpl. intros. lia.
    + intros _. eapply Forall_impl; [exact Hl|]. simpl. intros c Hc' ->. simpl in Hc'. lia.
  - split; [cbn [concat]; by rewrite app_nil_r|]. split.
    + apply Forall_singleton. lia.
    + intros Hne. by apply Forall_singleton.
Qed.

(** ** The debug tool *)

Section debug_tool.

Lemma covers_set_list_to_set (ws : list interval) m :
  covers_set (list_to_set ws) m ↔ covers ws m.
Proof. unfold covers_set, covers. by setoid_rewrite elem_of_list_to_set. Qed.

(** Intersecting with one more user keeps the minutes both sides cover. *)
Lemma debug_intersect_covers common ws m :
  covers_set (debug_intersect common ws) m ↔ covers_set common m ∧ covers ws m.
Proof.
  unfold covers_set, covers, debug_intersect. split.
  - intros (p & Hp & Hm). apply elem_of_list_to_set in Hp.
    apply list_elem_of_bind in Hp as (c & Hp & Hc%elem_of_elements).
    apply list_elem_of_bind in Hp as (u & Hp & Hu).
    case_decide; [|by apply elem_of_nil in Hp].
    apply list_elem_of_singleton in Hp as ->. unfold contains in *. simpl in Hm.
    split; [exists c|exists u]; (split; [done|lia]).
  - intros [(c & Hc & Hcm) (u & Hu & Hum)]. unfold contains in *.
    exists (Z.max c.1 u.1, Z.min c.2 u.2). split; [|simpl; lia].
    apply elem_of_list_to_set, list_elem_of_bind. exists c.
    split; [|by apply elem_of_elements].
    apply list_elem_of_bind. exists u. split; [|done].
    case_decide; [left|lia].
Qed.

Lemma debug_fold_covers (others : list (string * list interval)) common m :
  covers_set (foldl (λ common user_data, debug_intersect common user_data.2)
                common others) m
  ↔ covers_set common m ∧ Forall (λ user_data, covers user_data.2 m) others.
Proof.
  revert common. induction others as [|u others IH]; intros common; simpl.
  - split; [intros ?; split; [done|constructor]|by intros [? _]].
  - rewrite IH, debug_intersect_covers, Forall_cons. tauto.
Qed.

Lemma debug_user_periods_inv schedules acc res :
  debug_user_periods schedules acc = Some res →
  ∃ ups, res = acc ++ ups ∧
    Forall2 (λ s up, get_electricity_periods (default [] (d_outages s)) = Some up.2)
      schedules ups.
Proof.
  revert acc. induction schedules as [|s rest IH]; intros acc; simpl.
  - intros ?; simplify_eq. exists []. by rewrite app_nil_r.
  - destruct (get_outage_intervals (default [] (d_outages s))) as [ivs|]; [|done].
    cbn [mbind option_bind].
    destruct (get_electricity_periods (default [] (d_outages s))) as [ws|] eqn:Hws;
      [|done].
    cbn [mbind option_bind]. intros (ups & -> & Hf)%IH.
    exists ((d_username s, ws) :: ups). rewrite <- app_assoc. split; [done|].
    by constructor.
Qed.

Lemma debug_user_periods_total schedules acc :
  Forall (λ s, is_Some (get_electricity_periods (default [] (d_outages s)))) schedules →
  is_Some (debug_user_periods schedules acc).
Proof.
  intros Hall. revert acc. induction Hall as [|s rest [ws Hws] Hall IH]; intros acc; simpl.
  - done.
  - destruct (get_electricity_periods_inv _ _ Hws) as (ivs & -> & _).
    cbn [mbind option_bind]. rewrite Hws. cbn [mbind option_bind]. apply IH.
Qed.

(** The set returned by the debug tool covers the minutes at which every
    user has power. *)
Lemma debug_schedules_spec schedules common :
  debug_schedules schedules = Some (Some common) →
  (2 ≤ length schedules)%nat ∧
  ∀ m, covers_set common m ↔
    ∀ s, s ∈ schedules →
      ∃ ws, get_electricity_periods (default [] (d_outages s)) = Some ws ∧ covers ws m.
Proof.
  unfold debug_schedules.
  destruct (debug_user_periods schedules []) as [ups|] eqn:Hups; [|done].
  cbn [mbind option_bind].
  apply debug_user_periods_inv in Hups as (ups' & -> & Hf). simpl in *.
  pose proof (Forall2_length _ _ _ Hf) as Hlen.
  case_decide; [done|].
  destruct Hf as [|s first rest others Hs Hf]; [done|].
  intros ?; simplify_eq. split; [simpl in *; lia|].
  intros m. rewrite debug_fold_covers, covers_set_list_to_set. split.
  - intros [Hfirst Hall] s' [->|Hin]%elem_of_cons; [eauto|].
    clear -Hf Hall Hin. induction Hf as [|s2 u2 ? ? Hs2 Hf IH]; [by apply elem_of_nil in Hin|].
    apply Forall_cons in Hall as [Hu Hall].
    apply elem_of_cons in Hin as [->|Hin]; eauto.
  - intros Hall. split.
    + destruct (Hall s ltac:(left)) as (ws & Hws & Hc). congruence.
    + assert (Hall' : ∀ s', s' ∈ rest → ∃ ws,
          get_electricity_periods (default [] (d_outages s')) = Some ws ∧ covers ws m).
      { intros s' Hin. apply Hall. by right. }
      clear -Hf Hall'. induction Hf as [|s2 u2 ? ? Hs2 Hf IH]; [constructor|].
      constructor.
      * destruct (Hall' s2 ltac:(left)) as (ws & Hws & Hc). congruence.
      * apply IH. intros s' Hin. apply Hall'. by right.
Qed.

End debug_tool.

(** X15. When [debug_schedules] returns a set of periods, it was given at
    least two users, and a minute lies in a period of the set exactly when
    every user has power at it; no assumption on the outage lists is needed. *)
Theorem debug_schedules_covers (schedules : list DebugSchedule)
    (common : gset (Z * Z)) :
  debug_schedules schedules = Some (Some common) →
  (2 ≤ length schedules)%nat ∧
  ∀ m, covers_set common m ↔
    ∀ s, s ∈ schedules →
      ∃ ws, get_electricity_periods (default [] (d_outages s)) = Some ws ∧ covers ws m.
Proof. apply debug_schedules_spec. Qed.

Lemma debug_schedules_covers_witness :
  ∃ common,
    debug_schedules [to_debug "3.1" user_A; to_debug "6.1" user_B] = Some (Some common) ∧
    (2 ≤ length [to_debug "3.1" user_A; to_debug "6.1" user_B])%nat ∧
    ∀ m, covers_set common m ↔
      ∀ s, s ∈ [to_debug "3.1" user_A; to_debug "6.1" user_B] →
        ∃ ws, get_electricity_periods (default [] (d_outages s)) = Some ws ∧
              covers ws m.
Proof.
  exists {[ (300, 510); (930, 1140) ]}.
  assert (Hd : debug_schedules [to_debug "3.1" user_A; to_debug "6.1" user_B]
               = Some (Some {[ (300, 510); (930, 1140) ]})) by (vm_compute; reflexivity).
  split; [exact Hd|].
  exact (debug_schedules_covers _ _ Hd).
Defined.

(** X16. The debug tool and the engine agree: on at least two well-formed
    entries the debug tool returns a set, and that set covers exactly the
    minutes the engine's periods cover. *)
Theorem debug_schedules_agrees_with_engine (group : string)
    (schedules : list Schedule) :
  (2 ≤ length schedules)%nat →
  Forall well_formed_schedule schedules →
  ∃ ps common,
    find_common_electricity_periods schedules = Some (ps, []) ∧
    debug_schedules (to_debug group <$> schedules) = Some (Some common) ∧
    ∀ m, covers_set common m ↔ covers ps m.
Proof.
  intros Hlen Hwf.
  assert (Hne : schedules ≠ []) by (intros ->; simpl in Hlen; lia).
  destruct (find_common_covers _ Hne Hwf) as (ps & Hps & _ & _ & Hcov).
  assert (Htot : is_Some (debug_user_periods (to_debug group <$> schedules) [])).
  { apply debug_user_periods_total, Forall_fmap.
    eapply Forall_impl; [exact Hwf|]. intros s (ivs & Hivs & _). simpl.
    rewrite (get_electricity_periods_Some _ _ Hivs). eauto. }
  destruct Htot as [ups Hups].
  assert (Hd : ∃ common, debug_schedules (to_debug group <$> schedules) = Some (Some common)).
  { unfold debug_schedules. rewrite Hups. cbn [mbind option_bind].
    apply debug_user_periods_inv in Hups as (ups' & -> & Hf).
    apply Forall2_length in Hf. rewrite length_fmap in Hf. simpl.
    case_decide; [lia|]. destruct ups'; [simpl in *; lia|]. eauto. }
  destruct Hd as [common Hd].
  exists ps, common. split; [done|]. split; [done|].
  destruct (debug_schedules_spec _ _ Hd) as [_ Hdc].
  intros m. rewrite Hdc, Hcov. split.
  - intros Hall.
    assert (Hall' : ∀ s, s ∈ schedules → ∃ ws, windows_of s = Some ws ∧ covers ws m).
    { intros s Hs. apply (Hall (to_debug group s)). by apply list_elem_of_fmap_2. }
    split; [|done].
    destruct schedules as [|s1 rest]; [done|].
    destruct (Hall' s1 ltac:(left)) as (ws & Hws & w & Hw & Hwm).
    apply Forall_cons in Hwf as [(ivs & Hivs & Hwf1) _].
    unfold windows_of in Hws. rewrite (get_electricity_periods_Some _ _ Hivs) in Hws.
    simplify_eq.
    assert (Hc : chain 0 ivs).
    { apply well_formed_sorted_chain; [done|]. by eapply get_outage_intervals_sorted. }
    pose proof (complement_bounds 0 ivs Hc (well_formed_upper _ Hwf1)) as Hb.
    rewrite Forall_forall in Hb. specialize (Hb _ Hw). unfold contains in Hwm.
    simpl in Hb. lia.
  - intros [_ Hall] d (s & -> & Hs)%list_elem_of_fmap. by apply Hall.
Qed.

Lemma debug_schedules_agrees_with_engine_witness :
  (2 ≤ length [user_A; user_B])%nat ∧
  Forall well_formed_schedule [user_A; user_B] ∧
  ∃ ps common,
    find_common_electricity_periods [user_A; user_B] = Some (ps, []) ∧
    debug_schedules (to_debug "1.1" <$> [user_A; user_B]) = Some (Some common) ∧
    ∀ m, covers_set common m ↔ covers ps m.
Proof.
  assert (Hlen : (2 ≤ length [user_A; user_B])%nat) by (simpl; lia).
  assert (Hwf : Forall well_formed_schedule [user_A; user_B]).
  { repeat constructor.
    - solve_well_formed_schedule [(90, 300); (720, 930); (1350, 1440)].
    - solve_well_formed_schedule [(0, 90); (510, 720); (1140, 1350)]. }
  split; [exact Hlen|]. split; [exact Hwf|].
  exact (debug_schedules_agrees_with_engine "1.1" _ Hlen Hwf).
Defined.

(** ** Clock strings and the report *)

Section strings.

Lemma app_cons a s t : String a s +:+ t = String a (s +:+ t).
Proof. done. Qed.

Lemma app_empty t : "" +:+ t = t.
Proof. done. Qed.

Lemma length_app_string s t :
  String.length (s +:+ t) = (String.length s + String.length t)%nat.
Proof. induction s as [|a s IH]; [done|]. rewrite app_cons. simpl. by rewrite IH. Qed.

(** Two concatenations with suffixes of one length are equal part by part. *)
Lemma app_inj_suffix s s' t t' :
  String.length t = String.length t' → s +:+ t = s' +:+ t' → s = s' ∧ t = t'.
Proof.
  intros Hlen. revert s'. induction s as [|a s IH]; intros [|a' s'] Heq.
  - done.
  - apply (f_equal String.length) in Heq.
    rewrite app_empty, app_cons in Heq. simpl in Heq. rewrite length_app_string in Heq. lia.
  - apply (f_equal String.length) in Heq.
    rewrite app_empty, app_cons in Heq. simpl in Heq. rewrite length_app_string in Heq. lia.
  - rewrite !app_cons in Heq. injection Heq as -> Heq.
    destruct (IH _ Heq) as [-> ->]. done.
Qed.

Lemma string_Forall_app P s t :
  string_Forall P (s +:+ t) ↔ string_Forall P s ∧ string_Forall P t.
Proof.
  induction s as [|a s IH]; [rewrite app_empty; simpl; tauto|].
  rewrite app_cons. simpl. rewrite IH. tauto.
Qed.

Lemma string_Forall_impl (P Q : ascii → Prop) s :
  (∀ a, P a → Q a) → string_Forall P s → string_Forall Q s.
Proof. intros HPQ. induction s as [|a s IH]; simpl; [done|]. intros [? ?]; auto. Qed.

Lemma count_app c s t :
  PyMore.count c (s +:+ t) = (PyMore.count c s + PyMore.count c t)%nat.
Proof. induction s as [|a s IH]; [done|]. rewrite app_cons. simpl. rewrite IH. lia. Qed.

Lemma count_absent c s : string_Forall (λ a, a ≠ c) s → PyMore.count c s = 0%nat.
Proof.
  induction s as [|a s IH]; simpl; [done|]. intros [Ha Hs].
  rewrite (IH Hs). by case_decide.
Qed.

Lemma pretty_N_char_plain d : plain_char (pretty_N_char d).
Proof. unfold pretty_N_char, plain_char. repeat case_match; split; discriminate. Qed.

(** The decimal digits of a number are all among what [P] accepts. *)
Lemma pretty_N_go_Forall (P : ascii → Prop) x s :
  (∀ d, P (pretty_N_char d)) → string_Forall P s → string_Forall P (pretty_N_go x s).
Proof.
  intros HP. revert s. induction (N.lt_wf_0 x) as [x _ IH]; intros s Hs.
  destruct (decide (x = 0)%N) as [->|Hx]; [by rewrite pretty_N_go_0|].
  rewrite pretty_N_go_step by lia. apply IH; [apply N.div_lt; lia|].
  simpl. auto.
Qed.

Lemma pretty_Z_Forall (P : ascii → Prop) (z : Z) :
  (∀ d, P (pretty_N_char d)) → P "-"%char → string_Forall P (pretty z).
Proof.
  intros HP Hdash.
  assert (HN : ∀ x : N, string_Forall P (pretty x)).
  { intros x. unfold pretty, pretty_N. case_decide.
    - simpl. split; [apply (HP 0%N)|done].
    - by apply pretty_N_go_Forall. }
  destruct z as [|p|p]; unfold pretty, pretty_Z.
  - simpl. split; [apply (HP 0%N)|done].
  - apply HN.
  - apply string_Forall_app. split; [by simpl|apply HN].
Qed.

Lemma fmt_02d_Forall (P : ascii → Prop) (n : Z) :
  (∀ d, P (pretty_N_char d)) → P "-"%char → string_Forall P (Py.fmt_02d n).
Proof.
  intros HP Hdash. unfold Py.fmt_02d. case_decide.
  - apply string_Forall_app. split; [|by apply pretty_Z_Forall].
    simpl. split; [apply (HP 0%N)|done].
  - by apply pretty_Z_Forall.
Qed.

(** The first digit of a positive number is not a zero. *)
Lemma pretty_N_go_head x s :
  (0 < x)%N → ∃ c t, pretty_N_go x s = String c t ∧ c ≠ "0"%char.
Proof.
  revert s. induction (N.lt_wf_0 x) as [x _ IH]; intros s Hx.
  rewrite pretty_N_go_step by done.
  destruct (decide (x < 10)%N) as [Hlt|Hge].
  - rewrite N.div_small by done. rewrite pretty_N_go_0.
    rewrite N.mod_small by done. eexists _, _. split; [done|].
    assert (x = 1 ∨ x = 2 ∨ x = 3 ∨ x = 4 ∨ x = 5 ∨ x = 6 ∨ x = 7 ∨ x = 8 ∨ x = 9)%N
      as Hcases by lia.
    destruct Hcases as [->|[->|[->|[->|[->|[->|[->|[->| ->]]]]]]]]; discriminate.
  - apply IH; [apply N.div_lt; lia|]. apply N.div_str_pos. lia.
Qed.

Lemma pretty_Z_head (z : Z) : z ≠ 0 → ∃ c t, pretty z = String c t ∧ c ≠ "0"%char.
Proof.
  intros Hz. destruct z as [|p|p]; [done|..]; unfold pretty, pretty_Z.
  - unfold pretty, pretty_positive, pretty, pretty_N. case_decide; [done|].
    apply pretty_N_go_head. lia.
  - eexists _, _. rewrite app_cons. split; [done|discriminate].
Qed.

Global Instance fmt_02d_inj : Inj (=) (=) Py.fmt_02d.
Proof.
  intros n n'. unfold Py.fmt_02d. repeat case_decide; intros Heq.
  - rewrite !app_cons, !app_empty in Heq. injection Heq as Heq. by apply (inj pretty).
  - exfalso. destruct (pretty_Z_head n') as (c & t & Hp & Hc); [lia|].
    rewrite Hp, app_cons in Heq. by injection Heq as <- _.
  - exfalso. destruct (pretty_Z_head n) as (c & t & Hp & Hc); [lia|].
    rewrite Hp, app_cons in Heq. by injection Heq as -> _.
  - by apply (inj pretty).
Qed.

Lemma fmt_02d_length n : 0 ≤ n < 60 → String.length (Py.fmt_02d n) = 2%nat.
Proof.
  intros Hn.
  assert (Hall : forallb (λ k, Nat.eqb (String.length (Py.fmt_02d (Z.of_nat k))) 2)
                   (seq 0 60) = true) by (vm_compute; reflexivity).
  rewrite forallb_forall in Hall.
  specialize (Hall (Z.to_nat n)). rewrite Z2Nat.id in Hall by lia.
  apply Nat.eqb_eq, Hall, in_seq. lia.
Qed.

(** A clock string splits in one way into its hour and its minute part. *)
Lemma clock_split hs hs' r r' :
  0 ≤ r < 60 → 0 ≤ r' < 60 →
  hs +:+ ":" +:+ Py.fmt_02d r = hs' +:+ ":" +:+ Py.fmt_02d r' →
  hs = hs' ∧ r = r'.
Proof.
  intros Hr Hr' Heq. apply app_inj_suffix in Heq as [-> Heq].
  - split; [done|]. rewrite !app_cons, !app_empty in Heq. injection Heq as Heq.
    by apply (inj Py.fmt_02d).
  - rewrite !app_cons, !app_empty. simpl. by rewrite !fmt_02d_length.
Qed.

Lemma pretty_Z_no_colon (z : Z) : string_Forall (λ a, a ≠ ":"%char) (pretty z).
Proof.
  apply pretty_Z_Forall; [|discriminate].
  intros d. by destruct (pretty_N_char_plain d).
Qed.

Lemma minutes_to_hm_no_newline m :
  PyMore.count "010"%char (minutes_to_hm m) = 0%nat.
Proof.
  assert (Hd : ∀ d, pretty_N_char d ≠ "010"%char).
  { intros d. by destruct (pretty_N_char_plain d). }
  apply count_absent. unfold minutes_to_hm. case_decide.
  - apply pretty_Z_Forall; [done|discriminate].
  - rewrite !string_Forall_app. split; [|split].
    + apply pretty_Z_Forall; [done|discriminate].
    + simpl. split; [discriminate|done].
    + apply fmt_02d_Forall; [done|discriminate].
Qed.

Lemma foldl_lines (acc : list string) (ps : list interval) :
  foldl (λ lines p, lines ++ [report_line p]) acc ps = acc ++ (report_line <$> ps).
Proof.
  revert acc. induction ps as [|p ps IH]; intros acc; simpl.
  - by rewrite app_nil_r.
  - rewrite IH, <- app_assoc. done.
Qed.

Lemma count_join c sep (x : string) (l : list string) :
  Forall (λ s, PyMore.count c s = 0%nat) (x :: l) →
  PyMore.count c (PyMore.join sep (x :: l)) = (length l * PyMore.count c sep)%nat.
Proof.
  revert x. induction l as [|y l IH]; intros x [Hx Hl]%Forall_cons.
  - simpl. done.
  - change (PyMore.join sep (x :: y :: l)) with (x +:+ sep +:+ PyMore.join sep (y :: l)).
    rewrite !count_app, (IH y Hl), Hx. simpl. lia.
Qed.

Lemma report_line_no_newline p : PyMore.count "010"%char (report_line p) = 0%nat.
Proof.
  unfold report_line. rewrite !count_app, !minutes_to_hm_no_newline. done.
Qed.

End strings.

(** X17. [minutes_to_hhmm] is injective: two different minutes never get the
    same clock string. *)
Theorem minutes_to_hhmm_injective (m m' : Z) :
  minutes_to_hhmm m = minutes_to_hhmm m' → m = m'.
Proof.
  unfold minutes_to_hhmm. intros Heq.
  pose proof (Z.mod_pos_bound m 60 ltac:(lia)) as Hr.
  pose proof (Z.mod_pos_bound m' 60 ltac:(lia)) as Hr'.
  apply clock_split in Heq as [Hh Hm]; [|done..].
  apply (inj Py.fmt_02d) in Hh.
  rewrite (Z.div_mod m 60), (Z.div_mod m' 60) by lia. by rewrite Hh, Hm.
Qed.

Lemma minutes_to_hhmm_injective_witness :
  minutes_to_hhmm 90 = minutes_to_hhmm (30 + 60) ∧ 90 = 30 + 60.
Proof.
  split; [reflexivity|].
  apply minutes_to_hhmm_injective. reflexivity.
Defined.

(** X18. [minutes_to_hm] is injective as well: leaving out the leading zero
    and the [:00] of a full hour makes no two minutes look alike. *)
Theorem minutes_to_hm_injective (m m' : Z) :
  minutes_to_hm m = minutes_to_hm m' → m = m'.
Proof.
  unfold minutes_to_hm. intros Heq.
  pose proof (Z.mod_pos_bound m 60 ltac:(lia)) as Hr.
  pose proof (Z.mod_pos_bound m' 60 ltac:(lia)) as Hr'.
  assert (Hmixed : ∀ (h h' : Z) r, pretty h = pretty h' +:+ ":" +:+ Py.fmt_02d r → False).
  { intros h h' r Hp. pose proof (pretty_Z_no_colon h) as Hc.
    rewrite Hp in Hc. apply string_Forall_app in Hc as [_ Hc].
    rewrite app_cons in Hc. by destruct Hc as [Hc _]. }
  repeat case_decide.
  - apply (inj pretty) in Heq.
    rewrite (Z.div_mod m 60), (Z.div_mod m' 60) by lia. lia.
  - by destruct (Hmixed _ _ _ Heq).
  - symmetry in Heq. by destruct (Hmixed _ _ _ Heq).
  - apply clock_split in Heq as [Hh Hm]; [|done..].
    apply (inj pretty) in Hh.
    rewrite (Z.div_mod m 60), (Z.div_mod m' 60) by lia. by rewrite Hh, Hm.
Qed.

Lemma minutes_to_hm_injective_witness :
  minutes_to_hm 120 = minutes_to_hm (60 + 60) ∧ 120 = 60 + 60.
Proof.
  split; [reflexivity|].
  apply minutes_to_hm_injective. reflexivity.
Defined.

(** X19. The report has one line break per period: when the day name holds no
    line feed, the text of [format_report] holds exactly as many line feeds as
    there are periods, none for the empty list. *)
Theorem format_report_line_breaks (day_name : string) (common_periods : list interval) :
  PyMore.count "010"%char day_name = 0%nat →
  PyMore.count "010"%char (format_report day_name common_periods)
  = length common_periods.
Proof.
  intros Hday. unfold format_report. destruct common_periods as [|p ps].
  - rewrite count_app, Hday. reflexivity.
  - rewrite foldl_lines. cbn [app].
    rewrite count_join.
    + rewrite length_fmap. change (PyMore.count "010" PyMore.newline) with 1%nat. lia.
    + constructor.
      * rewrite count_app, Hday. reflexivity.
      * apply Forall_fmap, Forall_true. intros q. apply report_line_no_newline.
Qed.

Lemma format_report_line_breaks_witness :
  PyMore.count "010"%char "Today" = 0%nat ∧
  PyMore.count "010"%char (format_report "Today" [(300, 510); (930, 1140)])
  = length [(300, 510); (930, 1140)].
Proof.
  split; [reflexivity|].
  apply format_report_line_breaks. reflexivity.
Defined.

(** ** Further properties of the extraction and of the inversion *)

Section more.

Lemma extract_loop_length slots acc res :
  extract_loop slots acc = Some res →
  length res
  = (length acc + length (filter (λ slot, slot_type slot = Some "Definite") slots))%nat.
Proof.
  revert acc. induction slots as [|slot rest IH]; intros acc; cbn [extract_loop].
  - intros ?; simplify_eq. simpl. lia.
  - rewrite filter_cons. case_decide.
    + destruct (PyMore.truediv_60 (default (Py.Int 0) (slot_start slot))) as [sh|];
        [|done]. cbn [mbind option_bind].
      destruct (PyMore.truediv_60 (default (Py.Int 0) (slot_end slot))) as [eh|];
        [|done]. cbn [mbind option_bind].
      intros ->%IH. rewrite length_app. simpl. lia.
    + apply IH.
Qed.

(** From [lo] on, a minute of the day is in an interval or in a window of the
    complement, whatever the intervals are. *)
Lemma complement_no_gap lo ivs m :
  lo ≤ m < 1440 → covers ivs m ∨ covers (complement lo ivs) m.
Proof.
  revert lo. induction ivs as [|iv rest IH]; intros lo Hm; simpl.
  - right. case_decide; [|lia]. apply covers_singleton. unfold contains. simpl. lia.
  - rewrite covers_cons, covers_app.
    destruct (decide (m < iv.1)) as [Hlt|Hge].
    + right. left. case_decide; [|lia]. apply covers_singleton. unfold contains. simpl. lia.
    + destruct (decide (m < iv.2)) as [Hin|Hout].
      * left. left. unfold contains. lia.
      * destruct (IH iv.2 ltac:(lia)) as [?|?]; auto.
Qed.

End more.

(** X20. [_extract_definite_outages] yields one outage per slot whose type is
    ["Definite"] and none for any other slot; without a ["slots"] entry it
    yields none at all. *)
Theorem extract_definite_count (day_slots : option (list Slot))
    (outages : list Outage) :
  extract_definite_outages day_slots = Some outages →
  length outages
  = length (filter (λ slot, slot_type slot = Some "Definite") (default [] day_slots)).
Proof.
  unfold extract_definite_outages. intros Hl.
  by rewrite (extract_loop_length _ _ _ Hl).
Qed.

Lemma extract_definite_count_witness :
  ∃ outages,
    extract_definite_outages
      (Some [mkSlot (Some "NotPlanned") (Some (Py.Int 0)) (Some (Py.Int 510));
             mkSlot (Some "Definite") (Some (Py.Int 510)) (Some (Py.Int 720));
             mkSlot None None None]) = Some outages ∧
    length outages = 1%nat.
Proof.
  destruct (extract_definite_outages
      (Some [mkSlot (Some "NotPlanned") (Some (Py.Int 0)) (Some (Py.Int 510));
             mkSlot (Some "Definite") (Some (Py.Int 510)) (Some (Py.Int 720));
             mkSlot None None None])) as [outages|] eqn:He;
    [|vm_compute in He; discriminate].
  exists outages. split; [reflexivity|].
  exact (extract_definite_count _ _ He).
Defined.

(** X21. [get_electricity_periods] never leaves a gap: whatever the outage
    list, malformed or overlapping, every minute of the day lies in a converted
    outage interval or in a returned window. *)
Theorem availability_no_gap (outages : list Outage) (ivs : list interval) :
  get_outage_intervals outages = Some ivs →
  ∃ ws, get_electricity_periods outages = Some ws ∧
    ∀ m : Z, 0 ≤ m < 1440 → covers ivs m ∨ covers ws m.
Proof.
  intros Hivs. exists (complement 0 ivs).
  split; [by apply get_electricity_periods_Some|].
  intros m Hm. by apply complement_no_gap.
Qed.

Lemma availability_no_gap_witness :
  get_outage_intervals [backwards_outage] = Some [(600, 300)] ∧
  ∃ ws, get_electricity_periods [backwards_outage] = Some ws ∧
    ∀ m : Z, 0 ≤ m < 1440 → covers [(600, 300)] m ∨ covers ws m.
Proof.
  assert (Hc : get_outage_intervals [backwards_outage] = Some [(600, 300)])
    by (vm_compute; reflexivity).
  split; [exact Hc|].
  exact (availability_no_gap _ _ Hc).
Defined.
